(** * PowerAuth mobile SDK core: public types, token store and ECIES envelope

    A shallow embedding of [src/PowerAuth/PublicTypes.cpp] together with the
    parts of the SDK that are only declared in the headers
    ([PA2Types.h], [PowerAuthToken.h]) or exercised by [pa2ECIESTests.cpp]. *)

From stdpp Require Import gmap strings.
From Bignums Require Import BigZ.
From Stdlib Require Import ZArith List String Ascii Bool Lia DecimalString.
Import ListNotations.

Local Open Scope string_scope.

(** ** Byte strings and [std::string] *)

(** [cc7::ByteArray] / [cc7::ByteRange]: a sequence of octets. *)
Abbreviation bytes := (list Byte.byte).

(** [std::string::empty()]. *)
Definition str_empty (s : string) : bool :=
  match s with
  | EmptyString => true
  | String _ _ => false
  end.

(** [std::string::size()]. *)
Definition str_size (s : string) : nat := String.length s.

(** ** PublicTypes.cpp *)

Module PublicTypes.

(** *** HTTPRequestData *)

Record HTTPRequestData := mkHTTPRequestData {
  body : bytes;
  method : string;
  uri : string;
  offlineNonce : string
}.

(** The three-argument constructor leaves [offlineNonce] default-constructed. *)
Definition HTTPRequestData3 (b : bytes) (m u : string) : HTTPRequestData :=
  mkHTTPRequestData b m u "".

Definition HTTPRequestData4 (b : bytes) (m u n : string) : HTTPRequestData :=
  mkHTTPRequestData b m u n.

Definition hasValidData (r : HTTPRequestData) : bool :=
  if str_empty (method r) || str_empty (uri r) then false
  else if negb (String.eqb (method r) "GET" || String.eqb (method r) "POST" || String.eqb (method r) "HEAD"
                || String.eqb (method r) "PUT" || String.eqb (method r) "DELETE") then false
  else if negb (str_empty (offlineNonce r)) && negb (Nat.eqb (str_size (offlineNonce r)) 24)
  then false
  else true.

Definition isOfflineRequest (r : HTTPRequestData) : bool :=
  negb (str_empty (offlineNonce r)).

(** The methods accepted by [hasValidData]. *)
Definition allowed_methods : list string := ["GET"; "POST"; "HEAD"; "PUT"; "DELETE"].

(** *** HTTPRequestDataSignature *)

Record HTTPRequestDataSignature := mkHTTPRequestDataSignature {
  version : string;
  activationId : string;
  applicationKey : string;
  nonce : string;
  factor : string;
  signature : string
}.

(** The literal fragments of [protocol/Constants.h]. *)
Record AuthFragments := mkAuthFragments {
  PA_AUTH_FRAGMENT_BEGIN_VERSION : string;
  PA_AUTH_FRAGMENT_ACTIVATION_ID : string;
  PA_AUTH_FRAGMENT_APPLICATION_KEY : string;
  PA_AUTH_FRAGMENT_NONCE : string;
  PA_AUTH_FRAGMENT_SIGNATURE_TYPE : string;
  PA_AUTH_FRAGMENT_SIGNATURE : string;
  PA_AUTH_FRAGMENT_END : string
}.

(** [std::string::assign] and [std::string::append] on the output buffer. *)
Definition str_assign (out s : string) : string := s.
Definition str_append (out s : string) : string := String.append out s.

Section AuthHeader.

(** The fragments come from [protocol/Constants.h]; they are parameters here. *)
Variable K : AuthFragments.

(** [out.reserve(out_size)] only sets the capacity of [out]; the value built
    is the one below. *)
Definition buildAuthHeaderValue (s : HTTPRequestDataSignature) : string :=
  let out := EmptyString in
  let out := str_assign out (PA_AUTH_FRAGMENT_BEGIN_VERSION K) in
  let out := str_append out (version s) in
  let out := str_append out (PA_AUTH_FRAGMENT_ACTIVATION_ID K) in
  let out := str_append out (activationId s) in
  let out := str_append out (PA_AUTH_FRAGMENT_APPLICATION_KEY K) in
  let out := str_append out (applicationKey s) in
  let out := str_append out (PA_AUTH_FRAGMENT_NONCE K) in
  let out := str_append out (nonce s) in
  let out := str_append out (PA_AUTH_FRAGMENT_SIGNATURE_TYPE K) in
  let out := str_append out (factor s) in
  let out := str_append out (PA_AUTH_FRAGMENT_SIGNATURE K) in
  let out := str_append out (signature s) in
  let out := str_append out (PA_AUTH_FRAGMENT_END K) in
  out.

End AuthHeader.

(** The double quote character, and a value in double quotes. *)
Definition dquote : string := String (ascii_of_nat 34) EmptyString.

(** Modelled from the spec: the values of the [PA_AUTH_FRAGMENT_*] constants
    of [protocol/Constants.h], read off the header template
    [PowerAuth pa_version=.., pa_activation_id=.., pa_application_key=..,
    pa_nonce=.., pa_signature_type=.., pa_signature=..], values quoted. *)
Definition spec_fragments : AuthFragments :=
  {| PA_AUTH_FRAGMENT_BEGIN_VERSION := "PowerAuth pa_version=" ++ dquote;
     PA_AUTH_FRAGMENT_ACTIVATION_ID := dquote ++ ", pa_activation_id=" ++ dquote;
     PA_AUTH_FRAGMENT_APPLICATION_KEY := dquote ++ ", pa_application_key=" ++ dquote;
     PA_AUTH_FRAGMENT_NONCE := dquote ++ ", pa_nonce=" ++ dquote;
     PA_AUTH_FRAGMENT_SIGNATURE_TYPE := dquote ++ ", pa_signature_type=" ++ dquote;
     PA_AUTH_FRAGMENT_SIGNATURE := dquote ++ ", pa_signature=" ++ dquote;
     PA_AUTH_FRAGMENT_END := dquote |}.

(** The field values of a signature, in the order of the header. *)
Definition header_fields (s : HTTPRequestDataSignature) : list string :=
  [version s; activationId s; applicationKey s; nonce s; factor s; signature s].

(** A fixed template: literal [f0], then each value followed by its literal. *)
Fixpoint interleave (vals lits : list string) : string :=
  match vals, lits with
  | v :: vals', l :: lits' => v ++ l ++ interleave vals' lits'
  | _, _ => EmptyString
  end.

Definition header_template (K : AuthFragments) (vals : list string) : string :=
  PA_AUTH_FRAGMENT_BEGIN_VERSION K ++
  interleave vals
    [PA_AUTH_FRAGMENT_ACTIVATION_ID K; PA_AUTH_FRAGMENT_APPLICATION_KEY K;
     PA_AUTH_FRAGMENT_NONCE K; PA_AUTH_FRAGMENT_SIGNATURE_TYPE K;
     PA_AUTH_FRAGMENT_SIGNATURE K; PA_AUTH_FRAGMENT_END K].

(** The size [buildAuthHeaderValue] reserves: the lengths of the six values
    plus [PA_AUTH_FRAGMENTS_LENGTH], a constant of [protocol/Constants.h].
    Sizes are far below the range of [size_t]; they are natural numbers here. *)
Definition out_size (PA_AUTH_FRAGMENTS_LENGTH : nat) (s : HTTPRequestDataSignature) : nat :=
  str_size (activationId s) + str_size (applicationKey s) + str_size (nonce s)
  + str_size (factor s) + str_size (signature s) + str_size (version s)
  + PA_AUTH_FRAGMENTS_LENGTH.

(** The total length of the seven literals. *)
Definition fragments_length (K : AuthFragments) : nat :=
  str_size (PA_AUTH_FRAGMENT_BEGIN_VERSION K) + str_size (PA_AUTH_FRAGMENT_ACTIVATION_ID K)
  + str_size (PA_AUTH_FRAGMENT_APPLICATION_KEY K) + str_size (PA_AUTH_FRAGMENT_NONCE K)
  + str_size (PA_AUTH_FRAGMENT_SIGNATURE_TYPE K) + str_size (PA_AUTH_FRAGMENT_SIGNATURE K)
  + str_size (PA_AUTH_FRAGMENT_END K).

(** A character occurs in a string; a string starts with a character. *)
Fixpoint contains_char (q : ascii) (s : string) : bool :=
  match s with
  | EmptyString => false
  | String c s' => Ascii.eqb c q || contains_char q s'
  end.

Definition starts_with_char (q : ascii) (s : string) : bool :=
  match s with
  | EmptyString => false
  | String c _ => Ascii.eqb c q
  end.

(** Every literal that follows a value starts with the character [q]. *)
Definition closing_literals_start_with (q : ascii) (K : AuthFragments) : bool :=
  starts_with_char q (PA_AUTH_FRAGMENT_ACTIVATION_ID K)
  && starts_with_char q (PA_AUTH_FRAGMENT_APPLICATION_KEY K)
  && starts_with_char q (PA_AUTH_FRAGMENT_NONCE K)
  && starts_with_char q (PA_AUTH_FRAGMENT_SIGNATURE_TYPE K)
  && starts_with_char q (PA_AUTH_FRAGMENT_SIGNATURE K)
  && starts_with_char q (PA_AUTH_FRAGMENT_END K).

(** No value of the signature holds the character [q]. *)
Definition values_free_of (q : ascii) (s : HTTPRequestDataSignature) : bool :=
  forallb (fun v => negb (contains_char q v)) (header_fields s).

(** The Base64 alphabet: letters, digits, plus, slash and the padding sign. *)
Definition base64_char (c : ascii) : bool :=
  let n := nat_of_ascii c in
  ((65 <=? n)%nat && (n <=? 90)%nat) || ((97 <=? n)%nat && (n <=? 122)%nat)
  || ((48 <=? n)%nat && (n <=? 57)%nat) || (n =? 43)%nat || (n =? 47)%nat || (n =? 61)%nat.

Definition is_base64 (s : string) : bool :=
  forallb base64_char (list_ascii_of_string s).

(** *** RecoveryData *)

Record RecoveryData := mkRecoveryData {
  recoveryCode : string;
  puk : string
}.

Definition isEmpty (r : RecoveryData) : bool :=
  str_empty (recoveryCode r) && str_empty (puk r).

(** *** ActivationStatus *)

Inductive State := Created | OtpUsed | Active | Blocked | Removed.

(** Numeric values of the enumeration, as in [PA2ActivationState]. *)
Definition State_value (s : State) : Z :=
  match s with
  | Created => 1 | OtpUsed => 2 | Active => 3 | Blocked => 4 | Removed => 5
  end.

Definition State_eqb (a b : State) : bool := Z.eqb (State_value a) (State_value b).

Record ActivationStatus := mkActivationStatus {
  state : State;
  failCount : Z;
  maxFailCount : Z;
  currentVersion : Z;
  upgradeVersion : Z
}.

Section Upgrade.

(** [ActivationStatus::MaxSupported] is an enumerator declared in
    [PublicTypes.h]; its value is a parameter of the development. *)
Variable MaxSupported : Z.

Definition isProtocolUpgradeAvailable (s : ActivationStatus) : bool :=
  if State_eqb (state s) Active then
    if Z.ltb (currentVersion s) (upgradeVersion s) then
      Z.leb (upgradeVersion s) MaxSupported
    else false
  else false.

End Upgrade.

End PublicTypes.

(** ** PA2Types.h: the Objective-C view of the activation status *)

Module PA2Types.

Import PublicTypes.

(** [UInt32] values and their wrap-around. *)
Definition UInt32_modulus : Z := 2 ^ 32.
Definition wrap32 (z : Z) : Z := z mod UInt32_modulus.

(** Modelled from the spec: the getter of [PA2ActivationStatus.remainingAttempts]
    (implemented in [PA2Types.mm], of which only the declaration in
    [PA2Types.h] is present).  The spec gives
    [remaining_attempts = max(0, max_fail_count - fail_count)] only when
    [state = Active], else 0. *)
Definition remainingAttempts (s : ActivationStatus) : Z :=
  if State_eqb (state s) Active
  then Z.max 0 (maxFailCount s - failCount s)
  else 0%Z.

End PA2Types.

(** ** Octet strings: integers, exclusive or, comparison *)

Module Octets.

Local Open Scope Z_scope.

Definition byte_to_Z (b : Byte.byte) : Z := Z.of_N (Byte.to_N b).

Definition byte_of_Z (z : Z) : Byte.byte :=
  match Byte.of_N (Z.to_N (z mod 256)) with
  | Some b => b
  | None => Byte.x00
  end.

(** Big-endian decoding of an octet string, as [BN_bin2bn] does. *)
Definition be_to_Z (bs : bytes) : Z :=
  fold_left (fun acc b => acc * 256 + byte_to_Z b) bs 0.

(** Big-endian encoding on exactly [n] octets. *)
Fixpoint Z_to_be (n : nat) (z : Z) : bytes :=
  match n with
  | O => []
  | S n' => Z_to_be n' (z / 256) ++ [byte_of_Z z]
  end.

Definition byte_xor (a b : Byte.byte) : Byte.byte :=
  let '(a0, (a1, (a2, (a3, (a4, (a5, (a6, a7))))))) := Byte.to_bits a in
  let '(b0, (b1, (b2, (b3, (b4, (b5, (b6, b7))))))) := Byte.to_bits b in
  Byte.of_bits (xorb a0 b0, (xorb a1 b1, (xorb a2 b2, (xorb a3 b3,
               (xorb a4 b4, (xorb a5 b5, (xorb a6 b6, xorb a7 b7))))))).

(** Exclusive or of a block with a mask; the result has the block's length. *)
Fixpoint xor_bytes (a m : bytes) : bytes :=
  match a, m with
  | x :: a', y :: m' => byte_xor x y :: xor_bytes a' m'
  | _, [] => a
  | [], _ => []
  end.

Fixpoint bytes_eqb (a b : bytes) : bool :=
  match a, b with
  | [], [] => true
  | x :: a', y :: b' => Byte.eqb x y && bytes_eqb a' b'
  | _, _ => false
  end.

Definition bytes_empty (a : bytes) : bool :=
  match a with [] => true | _ :: _ => false end.

(** [cc7::FromHexString] on a string of hexadecimal digits. *)
Definition hex_digit (c : ascii) : option Z :=
  let n := Z.of_nat (nat_of_ascii c) in
  if (48 <=? n) && (n <=? 57) then Some (n - 48)
  else if (65 <=? n) && (n <=? 70) then Some (n - 55)
  else if (97 <=? n) && (n <=? 102) then Some (n - 87)
  else None.

Fixpoint FromHexString (s : string) : bytes :=
  match s with
  | String h (String l s') =>
      match hex_digit h, hex_digit l with
      | Some a, Some b => byte_of_Z (16 * a + b) :: FromHexString s'
      | _, _ => []
      end
  | _ => []
  end.

(** [cc7::MakeRange] on a C string: its characters as octets. *)
Definition MakeRange (s : string) : bytes := list_byte_of_string s.

End Octets.

(** ** The curve P-256 *)

Module P256.

Import Octets.
Local Open Scope bigZ_scope.

(** Modelled from the spec: the elliptic-curve helpers of
    [crypto/CryptoUtils.h] ([ECC_ImportPublicKey], [ECC_ExportPublicKey],
    the ECDH shared secret), which the library takes from OpenSSL.  The spec
    fixes the curve (P-256) and what a valid public key is: a point on the
    curve, not at infinity, with coordinates below the field prime.  The
    constants are the curve's standard domain parameters; field elements are
    big integers so that the model runs on 256-bit keys. *)
Definition p : bigZ := Eval vm_compute in 2 ^ 256 - 2 ^ 224 + 2 ^ 192 + 2 ^ 96 - 1.
Definition a : bigZ := Eval vm_compute in p - 3.
Definition b : bigZ :=
  Eval vm_compute in
    BigZ.of_Z 0x5ac635d8aa3a93e7b3ebbd55769886bc651d06b0cc53b0f63bce3c3e27d2604b.
Definition Gx : bigZ :=
  Eval vm_compute in
    BigZ.of_Z 0x6b17d1f2e12c4247f8bce6e563a440f277037d812deb33a0f4a13945d898c296.
Definition Gy : bigZ :=
  Eval vm_compute in
    BigZ.of_Z 0x4fe342e2fe1a7f9b8ee7eb4a7c0f9e162bce33576b315ececbb6406837bf51f5.
Definition n : Z := 0xffffffff00000000ffffffffffffffffbce6faada7179e84f3b9cac2fc632551.

Inductive point := Infinity | Affine (x y : bigZ).

(** Square-and-multiply exponentiation modulo [p]. *)
Fixpoint pow_mod_pos (x : bigZ) (e : positive) : bigZ :=
  match e with
  | xH => x mod p
  | xO e' => let h := pow_mod_pos x e' in (h * h) mod p
  | xI e' => let h := pow_mod_pos x e' in (((h * h) mod p) * x) mod p
  end.

Definition pow_mod (x : bigZ) (e : Z) : bigZ :=
  match e with
  | Zpos e' => pow_mod_pos x e'
  | _ => 1
  end.

Definition inv_exponent : Z := Eval vm_compute in BigZ.to_Z (p - 2).
Definition sqrt_exponent : Z := Eval vm_compute in BigZ.to_Z ((p + 1) / 4).

(** The inverse modulo [p], by Fermat's little theorem. *)
Definition inv_mod (x : bigZ) : bigZ := pow_mod x inv_exponent.

(** A square root modulo [p] when there is one; [p] is 3 modulo 4. *)
Definition sqrt_mod (x : bigZ) : bigZ := pow_mod x sqrt_exponent.

Definition curve_rhs (x : bigZ) : bigZ := (x * x * x + a * x + b) mod p.

Definition on_curve (x y : bigZ) : bool :=
  (0 <=? x) && (x <? p) && (0 <=? y) && (y <? p) && ((y * y) mod p =? curve_rhs x).

Definition double (P : point) : point :=
  match P with
  | Infinity => Infinity
  | Affine x y =>
      if y =? 0 then Infinity
      else
        let l := ((3 * x * x + a) * inv_mod (2 * y)) mod p in
        let x3 := (l * l - 2 * x) mod p in
        Affine x3 ((l * (x - x3) - y) mod p)
  end.

Definition add (P Q : point) : point :=
  match P, Q with
  | Infinity, _ => Q
  | _, Infinity => P
  | Affine x1 y1, Affine x2 y2 =>
      if x1 =? x2 then
        if y1 =? y2 then double P else Infinity
      else
        let l := ((y2 - y1) * inv_mod (x2 - x1)) mod p in
        let x3 := (l * l - x1 - x2) mod p in
        Affine x3 ((l * (x1 - x3) - y1) mod p)
  end.

(** Scalar multiplication, double-and-add from the most significant bit. *)
Fixpoint mul_pos (k : positive) (P : point) : point :=
  match k with
  | xH => P
  | xO k' => double (mul_pos k' P)
  | xI k' => add (double (mul_pos k' P)) P
  end.

Definition mul (k : Z) (P : point) : point :=
  match k with
  | Zpos k' => mul_pos k' P
  | _ => Infinity
  end.

Definition G : point := Affine Gx Gy.

(** The field prime as an integer. *)
Definition P_Z : Z := Eval vm_compute in BigZ.to_Z p.

Definition is_odd (y : bigZ) : bool := Z.odd (BigZ.to_Z y).

(** Point decoding: compressed (02/03 || X) and uncompressed (04 || X || Y)
    forms; anything else, a coordinate not below [p], or a point off the
    curve is refused. *)
Definition decompress (odd : bool) (x : bigZ) : option point :=
  if x <? p then
    let r := curve_rhs x in
    let y := sqrt_mod r in
    if (y * y) mod p =? r then
      let y' := if Bool.eqb (is_odd y) odd then y else p - y in
      if y' <? p then Some (Affine x y') else None
    else None
  else None.

Definition ECC_ImportPublicKey (k : bytes) : option point :=
  match k with
  | tag :: rest =>
      if Byte.eqb tag Byte.x02 && Nat.eqb (List.length rest) 32 then
        decompress false (BigZ.of_Z (be_to_Z rest))
      else if Byte.eqb tag Byte.x03 && Nat.eqb (List.length rest) 32 then
        decompress true (BigZ.of_Z (be_to_Z rest))
      else if Byte.eqb tag Byte.x04 && Nat.eqb (List.length rest) 64 then
        let x := BigZ.of_Z (be_to_Z (firstn 32 rest)) in
        let y := BigZ.of_Z (be_to_Z (skipn 32 rest)) in
        if on_curve x y then Some (Affine x y) else None
      else None
  | [] => None
  end.

(** Point encoding, compressed form (33 octets). *)
Definition ECC_ExportPublicKey (P : point) : bytes :=
  match P with
  | Infinity => [Byte.x00]
  | Affine x y => (if is_odd y then Byte.x03 else Byte.x02) :: Z_to_be 32 (BigZ.to_Z x)
  end.

(** Private keys are big-endian scalars. *)
Definition ECC_ImportPrivateKey (k : bytes) : Z := be_to_Z k.

Definition ECC_ExportPrivateKey (d : Z) : bytes := Z_to_be 32 d.

Definition ECC_PublicKeyOfPrivate (d : Z) : bytes := ECC_ExportPublicKey (mul d G).

(** The ECDH shared secret: the x coordinate of [d * P], on 32 octets. *)
Definition ECDH_SharedSecret (d : Z) (P : point) : option bytes :=
  match mul d P with
  | Infinity => None
  | Affine x _ => Some (Z_to_be 32 (BigZ.to_Z x))
  end.

(** The public key of [testInvalidCurve]. *)
Definition invalid_public_key : bytes :=
  FromHexString "02B70BF043C144935756F8F4578C369CF960EE510A5A0F90E93A373A21F0D1397F".

End P256.


(** ** Symmetric primitives *)

Module Crypto.

Import Octets.

(** The symmetric primitives of [crypto/CryptoUtils.h], which the library
    takes from OpenSSL: the AES-128 block transformation, HMAC-SHA256, the
    X9.63 key derivation function with SHA-256, the derivation of the CBC
    initialisation vector (a KDF over the envelope key and the nonce), and
    Base64 encoding. *)
Class Primitives := {
  AES_EncryptBlock : bytes -> bytes -> bytes;
  AES_DecryptBlock : bytes -> bytes -> bytes;
  HMAC_SHA256 : bytes -> bytes -> bytes;
  ECDH_KDF_X9_63_SHA256 : bytes -> bytes -> nat -> bytes;
  derive_iv : bytes -> bytes -> bytes;
  base64String : bytes -> string
}.

(** What the development relies on: AES is a permutation of 16-octet blocks
    for every key, an HMAC-SHA256 tag has 32 octets. *)
Class PrimitivesOk (P : Primitives) : Prop := {
  AES_block_length :
    forall k blk, List.length blk = 16 -> List.length (AES_EncryptBlock k blk) = 16;
  AES_decrypt_encrypt :
    forall k blk, List.length blk = 16 -> AES_DecryptBlock k (AES_EncryptBlock k blk) = blk;
  HMAC_length :
    forall k d, List.length (HMAC_SHA256 k d) = 32
}.

Section Modes.

Context {P : Primitives}.

Definition block_size : nat := 16.

(** PKCS#7: between 1 and 16 octets, each holding the pad length. *)
Definition pkcs7_pad_length (len : nat) : nat := block_size - len mod block_size.

Definition pkcs7_pad (data : bytes) : bytes :=
  let n := pkcs7_pad_length (List.length data) in
  data ++ repeat (byte_of_Z (Z.of_nat n)) n.

Definition pkcs7_unpad (data : bytes) : option bytes :=
  match rev data with
  | [] => None
  | l :: _ =>
      let n := Z.to_nat (byte_to_Z l) in
      if (1 <=? n)%nat && (n <=? block_size)%nat && (n <=? List.length data)%nat
         && bytes_eqb (skipn (List.length data - n) data) (repeat l n)
      then Some (firstn (List.length data - n) data)
      else None
  end.

(** The input split in blocks of 16 octets (the last one may be shorter). *)
Fixpoint chunks_fuel (fuel : nat) (data : bytes) : list bytes :=
  match fuel with
  | O => []
  | S fuel' =>
      match data with
      | [] => []
      | _ :: _ => firstn block_size data :: chunks_fuel fuel' (skipn block_size data)
      end
  end.

Definition chunks (data : bytes) : list bytes := chunks_fuel (List.length data) data.

(** Cipher block chaining. *)
Fixpoint cbc_encrypt_blocks (key prev : bytes) (blocks : list bytes) : list bytes :=
  match blocks with
  | [] => []
  | blk :: rest =>
      let c := AES_EncryptBlock key (xor_bytes blk prev) in
      c :: cbc_encrypt_blocks key c rest
  end.

Fixpoint cbc_decrypt_blocks (key prev : bytes) (blocks : list bytes) : list bytes :=
  match blocks with
  | [] => []
  | c :: rest =>
      xor_bytes (AES_DecryptBlock key c) prev :: cbc_decrypt_blocks key c rest
  end.

Definition AES_CBC_Encrypt_Padding (key iv data : bytes) : bytes :=
  List.concat (cbc_encrypt_blocks key iv (chunks (pkcs7_pad data))).

Definition AES_CBC_Decrypt_Padding (key iv data : bytes) : option bytes :=
  if bytes_empty data || negb (Nat.eqb (List.length data mod block_size) 0) then None
  else pkcs7_unpad (List.concat (cbc_decrypt_blocks key iv (chunks data))).

End Modes.

(** A block of exactly 16 octets. *)
Definition full_block (blk : bytes) : Prop := List.length blk = block_size.

(** A toy instance of the primitives, to run the model: the block
    transformation reverses the block, tags and derived keys are cut out of
    the padded input. *)
Definition toy_take (n : nat) (data : bytes) : bytes :=
  firstn n (data ++ repeat Byte.x00 n).

Definition toy_primitives : Primitives :=
  {| AES_EncryptBlock := fun _ blk => rev blk;
     AES_DecryptBlock := fun _ blk => rev blk;
     HMAC_SHA256 := fun k d => toy_take 32 (xor_bytes (toy_take 32 d) k);
     ECDH_KDF_X9_63_SHA256 := fun s info n => toy_take n (s ++ info);
     derive_iv := fun env nonce => toy_take 16 (xor_bytes (toy_take 16 nonce) env);
     base64String := fun d => string_of_list_byte d |}.

End Crypto.

(** ** ECIES: encryptor, decryptor and cryptogram *)

Module ECIES.

Import Octets P256 Crypto.

(** [ErrorCode], with the values of [PA2CoreErrorCode]. *)
Inductive ErrorCode := EC_Ok | EC_Encryption | EC_WrongState | EC_WrongParam.

Definition ErrorCode_value (e : ErrorCode) : Z :=
  match e with
  | EC_Ok => 0 | EC_Encryption => 1 | EC_WrongState => 2 | EC_WrongParam => 3
  end%Z.

Record ECIESCryptogram := mkCryptogram {
  body : bytes;
  mac : bytes;
  key : bytes;
  nonce : bytes
}.

(** A default-constructed cryptogram. *)
Definition empty_cryptogram : ECIESCryptogram := mkCryptogram [] [] [] [].

(** The envelope key is [K_enc || K_mac], 16 octets each. *)
Definition encKey (envelope : bytes) : bytes := firstn 16 envelope.
Definition macKey (envelope : bytes) : bytes := skipn 16 envelope.

Record ECIESEncryptor := mkEncryptor {
  enc_publicKey : bytes;
  enc_sharedInfo1 : bytes;
  enc_sharedInfo2 : bytes;
  enc_envelopeKey : option bytes
}.

Record ECIESDecryptor := mkDecryptor {
  dec_privateKey : bytes;
  dec_sharedInfo1 : bytes;
  dec_sharedInfo2 : bytes;
  dec_envelopeKey : option bytes
}.

(** The constructors and setters used by [testEncryptorDecryptor]. *)
Definition newECIESEncryptor (public_key si1 si2 : bytes) : ECIESEncryptor :=
  mkEncryptor public_key si1 si2 None.

Definition newECIESDecryptor (private_key si1 si2 : bytes) : ECIESDecryptor :=
  mkDecryptor private_key si1 si2 None.

Definition enc_setSharedInfo1 (e : ECIESEncryptor) (si : bytes) : ECIESEncryptor :=
  mkEncryptor (enc_publicKey e) si (enc_sharedInfo2 e) (enc_envelopeKey e).

Definition enc_setSharedInfo2 (e : ECIESEncryptor) (si : bytes) : ECIESEncryptor :=
  mkEncryptor (enc_publicKey e) (enc_sharedInfo1 e) si (enc_envelopeKey e).

Definition dec_setSharedInfo1 (d : ECIESDecryptor) (si : bytes) : ECIESDecryptor :=
  mkDecryptor (dec_privateKey d) si (dec_sharedInfo2 d) (dec_envelopeKey d).

Definition dec_setSharedInfo2 (d : ECIESDecryptor) (si : bytes) : ECIESDecryptor :=
  mkDecryptor (dec_privateKey d) (dec_sharedInfo1 d) si (dec_envelopeKey d).

Section Engine.

Context {P : Primitives}.

(** Modelled from the spec: the ECIES engine of [PowerAuth/ECIES.h]
    ([ECIESEncryptor], [ECIESDecryptor]), implemented in [ECIES.cpp].  Envelope key: [KDF_X9.63_SHA256(secret, shared_info1, 32)]
    for the ECDH secret.  Cryptogram: [iv = derive_iv(envelope, nonce)],
    [ciphertext = AES-128-CBC-PKCS7(K_enc, iv, plaintext)],
    [mac = HMAC-SHA256(K_mac, associated)], where [associated] is
    [ciphertext || shared_info2 || e_pub || nonce] for a request and
    [body || shared_info2 || nonce] for a response, whose [key] is empty.
    The ephemeral private key and the nonce, drawn at random by the library,
    are arguments here. *)
Definition derive_envelope (secret si1 : bytes) : bytes :=
  ECDH_KDF_X9_63_SHA256 secret si1 32.

Definition request_associated (c_body si2 e_pub c_nonce : bytes) : bytes :=
  c_body ++ si2 ++ e_pub ++ c_nonce.

Definition response_associated (c_body si2 c_nonce : bytes) : bytes :=
  c_body ++ si2 ++ c_nonce.

Definition encryptRequest (e : ECIESEncryptor) (e_priv : Z) (rnd : bytes)
    (data : bytes) (out : ECIESCryptogram)
    : ErrorCode * ECIESEncryptor * ECIESCryptogram :=
  match ECC_ImportPublicKey (enc_publicKey e) with
  | None => (EC_Encryption, e, out)
  | Some peer =>
      match ECDH_SharedSecret e_priv peer with
      | None => (EC_Encryption, e, out)
      | Some secret =>
          let e_pub := ECC_PublicKeyOfPrivate e_priv in
          let envelope := derive_envelope secret (enc_sharedInfo1 e) in
          let iv := derive_iv envelope rnd in
          let ciphertext := AES_CBC_Encrypt_Padding (encKey envelope) iv data in
          let tag := HMAC_SHA256 (macKey envelope)
                       (request_associated ciphertext (enc_sharedInfo2 e) e_pub rnd) in
          (EC_Ok,
           mkEncryptor (enc_publicKey e) (enc_sharedInfo1 e) (enc_sharedInfo2 e)
                       (Some envelope),
           mkCryptogram ciphertext tag e_pub rnd)
      end
  end.

Definition decryptRequest (d : ECIESDecryptor) (c : ECIESCryptogram) (out : bytes)
    : ErrorCode * ECIESDecryptor * bytes :=
  match ECC_ImportPublicKey (key c) with
  | None => (EC_Encryption, d, out)
  | Some e_pub =>
      match ECDH_SharedSecret (ECC_ImportPrivateKey (dec_privateKey d)) e_pub with
      | None => (EC_Encryption, d, out)
      | Some secret =>
          let envelope := derive_envelope secret (dec_sharedInfo1 d) in
          let tag := HMAC_SHA256 (macKey envelope)
                       (request_associated (body c) (dec_sharedInfo2 d) (key c) (nonce c)) in
          if bytes_eqb tag (mac c) then
            match AES_CBC_Decrypt_Padding (encKey envelope)
                    (derive_iv envelope (nonce c)) (body c) with
            | Some plain =>
                (EC_Ok,
                 mkDecryptor (dec_privateKey d) (dec_sharedInfo1 d) (dec_sharedInfo2 d)
                             (Some envelope),
                 plain)
            | None => (EC_Encryption, d, out)
            end
          else (EC_Encryption, d, out)
      end
  end.

(** A response reuses the envelope key of the request; without one the call
    is a misuse of the interface ([WrongState]). *)
Definition encryptResponse (d : ECIESDecryptor) (rnd : bytes)
    (data : bytes) (out : ECIESCryptogram)
    : ErrorCode * ECIESDecryptor * ECIESCryptogram :=
  match dec_envelopeKey d with
  | None => (EC_WrongState, d, out)
  | Some envelope =>
      let iv := derive_iv envelope rnd in
      let ciphertext := AES_CBC_Encrypt_Padding (encKey envelope) iv data in
      let tag := HMAC_SHA256 (macKey envelope)
                   (response_associated ciphertext (dec_sharedInfo2 d) rnd) in
      (EC_Ok, d, mkCryptogram ciphertext tag [] rnd)
  end.

(** The client rejects a response that lacks an expected field or whose MAC
    does not match. *)
Definition decryptResponse (e : ECIESEncryptor) (c : ECIESCryptogram) (out : bytes)
    : ErrorCode * ECIESEncryptor * bytes :=
  match enc_envelopeKey e with
  | None => (EC_WrongState, e, out)
  | Some envelope =>
      if bytes_empty (body c) || bytes_empty (mac c) || bytes_empty (nonce c) then
        (EC_Encryption, e, out)
      else
        let tag := HMAC_SHA256 (macKey envelope)
                     (response_associated (body c) (enc_sharedInfo2 e) (nonce c)) in
        if bytes_eqb tag (mac c) then
          match AES_CBC_Decrypt_Padding (encKey envelope)
                  (derive_iv envelope (nonce c)) (body c) with
          | Some plain => (EC_Ok, e, plain)
          | None => (EC_Encryption, e, out)
          end
        else (EC_Encryption, e, out)
  end.

(** *** pa2ECIESTests.cpp *)

(** The master private key as the test exports it: 32 octets, with a leading
    zero octet when the first one is above 0x7F. *)
Definition java_compatible (k : bytes) : bytes :=
  match k with
  | b0 :: _ => if (0x7F <? byte_to_Z b0)%Z then Byte.x00 :: k else k
  | [] => k
  end.

(** How Java reads an octet string as a big integer: big-endian two's
    complement, negative when the first octet is above 0x7F. *)
Definition java_BigInteger (k : bytes) : Z :=
  match k with
  | b0 :: _ =>
      if (0x7F <? byte_to_Z b0)%Z
      then (be_to_Z k - 256 ^ Z.of_nat (List.length k))%Z
      else be_to_Z k
  | [] => 0%Z
  end.

Definition master_public_key (server_priv : Z) : bytes :=
  ECC_PublicKeyOfPrivate server_priv.

Definition master_private_key (server_priv : Z) : bytes :=
  java_compatible (ECC_ExportPrivateKey server_priv).

Record Data := mkData {
  requestData : bytes;
  responseData : bytes;
  sharedInfo1 : bytes;
  sharedInfo2 : bytes
}.

(** What one round of the loop of [testEncryptorDecryptor] observes. *)
Record Round := mkRound {
  ec_encryptRequest : ErrorCode;
  request : ECIESCryptogram;
  ec_decryptRequest : ErrorCode;
  server_received_data : bytes;
  ec_encryptResponse : ErrorCode;
  response : ECIESCryptogram;
  ec_decryptResponse : ErrorCode;
  client_received_data : bytes;
  client_encryptor' : ECIESEncryptor;
  server_decryptor' : ECIESDecryptor
}.

(** One round of the loop, on the encryptor and decryptor left by the
    rounds before; [e_priv], [rnd1] and [rnd2] are the round's random draws. *)
Definition test_round (client_encryptor : ECIESEncryptor)
    (server_decryptor : ECIESDecryptor)
    (e_priv : Z) (rnd1 rnd2 : bytes) (row : Data) : Round :=
  let client_encryptor := enc_setSharedInfo1 client_encryptor (sharedInfo1 row) in
  let client_encryptor := enc_setSharedInfo2 client_encryptor (sharedInfo2 row) in
  let '(ec1, client_encryptor, req) :=
    encryptRequest client_encryptor e_priv rnd1 (requestData row) empty_cryptogram in
  let server_decryptor := dec_setSharedInfo1 server_decryptor (sharedInfo1 row) in
  let server_decryptor := dec_setSharedInfo2 server_decryptor (sharedInfo2 row) in
  let '(ec2, server_decryptor, received) := decryptRequest server_decryptor req [] in
  let '(ec3, server_decryptor, resp) :=
    encryptResponse server_decryptor rnd2 (responseData row) empty_cryptogram in
  let '(ec4, client_encryptor, received') := decryptResponse client_encryptor resp [] in
  mkRound ec1 req ec2 received ec3 resp ec4 received' client_encryptor server_decryptor.

End Engine.

(** The ephemeral key pair and the master key pair derive the same secret.
    On P-256 this holds for every pair of private keys in the range of the
    group order; here it is a property that can be computed for given keys. *)
Definition keys_agree (server_priv e_priv : Z) : bool :=
  match ECC_ImportPublicKey (ECC_PublicKeyOfPrivate server_priv),
        ECC_ImportPublicKey (ECC_PublicKeyOfPrivate e_priv) with
  | Some Ps, Some Pe =>
      match ECDH_SharedSecret e_priv Ps, ECDH_SharedSecret server_priv Pe with
      | Some s1, Some s2 => bytes_eqb s1 s2
      | _, _ => false
      end
  | _, _ => false
  end.

(** A public key is valid when it encodes, in compressed or uncompressed
    form, a point of the curve with coordinates below the field prime. *)
Definition encodes (k : bytes) (x y : bigZ) : Prop :=
  k = (if is_odd y then Byte.x03 else Byte.x02) :: Z_to_be 32 (BigZ.to_Z x)
  \/ k = Byte.x04 :: Z_to_be 32 (BigZ.to_Z x) ++ Z_to_be 32 (BigZ.to_Z y).

Definition valid_public_key (k : bytes) : Prop :=
  exists x y, on_curve x y = true /\ encodes k x y.

(** The rows of [s_test_data]. *)
Definition s_test_data : list Data :=
  map (fun '(rq, rs, s1, s2) => mkData (MakeRange rq) (MakeRange rs) (MakeRange s1) (MakeRange s2))
    [ ("hello world!", "hey there!", "", "");
      ("All your base are belong to us!", "NOPE!", "very secret information", "not-so-secret");
      ("It's over Johny! It's over.",
       "Nothing is over! Nothing! You just don't turn it off! It wasn't my war! You asked me, I didn't ask you! And I did what I had to do to win!",
       "0123456789abcdef", "John Tramonta");
      ("", "", "12345-56789", "ZX128");
      ("{}", "{}", "", "");
      ("{}", "", "", "") ].

(** Random draws for a sample run, and the round they give on the fourth row
    of [s_test_data] (empty request and response) for the key pair of the
    private key 7 and the ephemeral private key 11, with the toy primitives. *)
Definition sample_rnd1 : bytes := FromHexString "000102030405060708090a0b0c0d0e0f".
Definition sample_rnd2 : bytes := FromHexString "f0e1d2c3b4a5968778695a4b3c2d1e0f".

Definition sample_row : Data :=
  mkData [] [] (MakeRange "12345-56789") (MakeRange "ZX128").

Definition sample_encryptor : ECIESEncryptor :=
  enc_setSharedInfo2
    (enc_setSharedInfo1 (newECIESEncryptor (master_public_key 7) [] []) (sharedInfo1 sample_row))
    (sharedInfo2 sample_row).

Definition sample_decryptor : ECIESDecryptor :=
  dec_setSharedInfo2
    (dec_setSharedInfo1 (newECIESDecryptor (master_private_key 7) [] []) (sharedInfo1 sample_row))
    (sharedInfo2 sample_row).

Definition sample_round : Round :=
  Eval vm_compute in
    test_round (P := toy_primitives)
      (newECIESEncryptor (master_public_key 7) [] [])
      (newECIESDecryptor (master_private_key 7) [] [])
      11 sample_rnd1 sample_rnd2 sample_row.

End ECIES.

(** ** PowerAuthToken.h: tokens and the token store *)

Module Token.

Import Octets Crypto.

(** The token entity: name, identifier and a 16-octet secret. *)
Record TokenData := mkTokenData {
  td_name : string;
  td_identifier : string;
  td_secret : bytes
}.

(** A store: whether it can create access tokens, and its local database. *)
Record TokenStore := mkTokenStore {
  canRequestForAccessToken : bool;
  localTokens : gmap string TokenData
}.

(** A token holds its data, if valid, and a weak reference to its store,
    which reads as nil once the store is gone. *)
Record PowerAuthToken := mkToken {
  tokenData : option TokenData;
  tokenStore : option TokenStore
}.

Definition isValid (t : PowerAuthToken) : bool :=
  match tokenData t with Some _ => true | None => false end.

(** Modelled from the spec: the implementation of [PowerAuthToken]
    ([canGenerateHeader], [generateHeader]); the header declares
    [canGenerateHeader] as [token.isValid && token.tokenStore.canRequestForAccessToken],
    and a message to a nil store answers NO. *)
Definition canGenerateHeader (t : PowerAuthToken) : bool :=
  isValid t &&
  match tokenStore t with
  | Some st => canRequestForAccessToken st
  | None => false
  end.

Definition decimal_string (z : Z) : string :=
  NilZero.string_of_uint (N.to_uint (Z.to_N z)).

Definition quoted (s : string) : string :=
  PublicTypes.dquote ++ s ++ PublicTypes.dquote.

Section Header.

Context {P : Primitives}.

(** Modelled from the spec: the token header,
    [nonce = base64(random(16))], [timestamp] the decimal milliseconds,
    [mac = base64(HMAC-SHA256(secret, nonce & timestamp))]; null if the token
    is invalid or the store reports it cannot service access tokens.  The
    random octets and the clock are arguments. *)
Definition token_header (td : TokenData) (rnd : bytes) (now_ms : Z) : string :=
  let nonce := base64String rnd in
  let timestamp := decimal_string now_ms in
  let data := list_byte_of_string (nonce ++ "&" ++ timestamp) in
  let digest := base64String (HMAC_SHA256 (td_secret td) data) in
  "PowerAuth token_id=" ++ quoted (td_identifier td) ++
  ", token_digest=" ++ quoted digest ++
  ", nonce=" ++ quoted nonce ++
  ", timestamp=" ++ quoted timestamp ++
  ", version=" ++ quoted "3.1".

Definition generateHeader (t : PowerAuthToken) (rnd : bytes) (now_ms : Z) : option string :=
  match tokenData t, tokenStore t with
  | Some td, Some st =>
      if canRequestForAccessToken st then Some (token_header td rnd now_ms) else None
  | _, _ => None
  end.

End Header.

(** The outcome of the removal request sent to the server. *)
Inductive ServerReply := ReplySucceeded | ReplyFailed (error : string).

(** Modelled from the spec: an implementation of the [PowerAuthTokenStore]
    protocol, of which only the declaration is given.  [remove_access_token]
    attempts the server-side invalidation and deletes the local token only on
    success; [removeLocalToken] deletes the local data without asking the
    server.  The result holds the store after the call and the arguments of
    the completion block. *)
Definition removeAccessTokenWithName (name : string) (reply : ServerReply)
    (st : TokenStore) : TokenStore * (bool * option string) :=
  match reply with
  | ReplySucceeded =>
      (mkTokenStore (canRequestForAccessToken st) (delete name (localTokens st)),
       (true, None))
  | ReplyFailed error => (st, (false, Some error))
  end.

Definition removeLocalTokenWithName (name : string) (st : TokenStore) : TokenStore :=
  mkTokenStore (canRequestForAccessToken st) (delete name (localTokens st)).

Definition removeAllLocalTokens (st : TokenStore) : TokenStore :=
  mkTokenStore (canRequestForAccessToken st) ∅.

Definition hasLocalTokenWithName (name : string) (st : TokenStore) : bool :=
  match localTokens st !! name with Some _ => true | None => false end.

(** Modelled from the spec: [request_access_token] resolves with the cached
    token when the store has one under the name; otherwise it asks the
    server and, on success, persists the token it returns.  [reply] is the
    server's answer, if any. *)
Definition requestAccessTokenWithName (name : string) (reply : option TokenData)
    (st : TokenStore) : TokenStore * option TokenData :=
  match localTokens st !! name with
  | Some td => (st, Some td)
  | None =>
      match reply with
      | Some td =>
          (mkTokenStore (canRequestForAccessToken st) (<[name := td]> (localTokens st)),
           Some td)
      | None => (st, None)
      end
  end.

(** [cancelTask] does not touch the local database. *)
Definition cancelTask (st : TokenStore) : TokenStore := st.

(** The calls of the [PowerAuthTokenStore] protocol, with the server's answer
    where there is one. *)
Inductive StoreCall :=
  | CallCanRequestForAccessToken
  | CallRequestAccessToken (name : string) (reply : option TokenData)
  | CallRemoveAccessToken (name : string) (reply : ServerReply)
  | CallCancelTask
  | CallRemoveLocalToken (name : string)
  | CallRemoveAllLocalTokens
  | CallHasLocalToken (name : string).

(** The store after a call. *)
Definition store_after (c : StoreCall) (st : TokenStore) : TokenStore :=
  match c with
  | CallCanRequestForAccessToken => st
  | CallRequestAccessToken name reply => fst (requestAccessTokenWithName name reply st)
  | CallRemoveAccessToken name reply => fst (removeAccessTokenWithName name reply st)
  | CallCancelTask => cancelTask st
  | CallRemoveLocalToken name => removeLocalTokenWithName name st
  | CallRemoveAllLocalTokens => removeAllLocalTokens st
  | CallHasLocalToken _ => st
  end.

(** The call is a removal that the server confirmed. *)
Definition server_confirmed (c : StoreCall) : bool :=
  match c with
  | CallRemoveAccessToken _ ReplySucceeded => true
  | _ => false
  end.

(** The call deletes the token [name] from the store [st]. *)
Definition deletes_token (c : StoreCall) (name : string) (st : TokenStore) : Prop :=
  localTokens st !! name <> None /\ localTokens (store_after c st) !! name = None.

End Token.

(** * Properties *)

(** ** Strings and octets *)

Lemma str_empty_true (s : string) : str_empty s = true <-> s = "".
Proof. destruct s; simpl; split; congruence. Qed.

Lemma str_empty_false (s : string) : str_empty s = false <-> s <> "".
Proof. destruct s; simpl; split; congruence. Qed.

Lemma str_append_cons (c : ascii) (x y : string) :
  String.append (String c x) y = String c (String.append x y).
Proof. reflexivity. Qed.

Lemma str_append_assoc (x y z : string) :
  String.append x (String.append y z) = String.append (String.append x y) z.
Proof.
  induction x as [|c x IH]; [reflexivity |].
  rewrite !str_append_cons. now rewrite IH.
Qed.

Lemma str_append_nil_r (x : string) : String.append x "" = x.
Proof.
  induction x as [|c x IH]; [reflexivity |].
  rewrite str_append_cons. now rewrite IH.
Qed.

(** ** HTTPRequestData and ActivationStatus *)

Section PublicTypesFacts.

Import PublicTypes.

Lemma method_allowed_iff (m : string) :
  (String.eqb m "GET" || String.eqb m "POST" || String.eqb m "HEAD"
   || String.eqb m "PUT" || String.eqb m "DELETE") = true
  <-> In m allowed_methods.
Proof.
  unfold allowed_methods. rewrite !orb_true_iff, !String.eqb_eq. simpl.
  intuition congruence.
Qed.

Lemma nonce_check_iff (n : string) :
  (negb (str_empty n) && negb (Nat.eqb (str_size n) 24)) = false
  <-> n = "" \/ String.length n = 24.
Proof.
  unfold str_size. rewrite andb_false_iff, !negb_false_iff, str_empty_true, Nat.eqb_eq.
  reflexivity.
Qed.

(** C3. [hasValidData] holds exactly when the method is one of GET, POST,
    HEAD, PUT, DELETE, the uri is not empty and the offline nonce is empty or
    24 characters long; the request [GET /pa/activation/status] is valid,
    [PATCH /x], [POST] with an empty uri and a nonce of 23 characters are
    refused. *)
Theorem hasValidData_iff :
  (forall r : HTTPRequestData,
      hasValidData r = true <->
      In (method r) allowed_methods /\ uri r <> "" /\
      (offlineNonce r = "" \/ String.length (offlineNonce r) = 24))
  /\ hasValidData (HTTPRequestData3 [] "GET" "/pa/activation/status") = true
  /\ hasValidData (HTTPRequestData3 [] "PATCH" "/x") = false
  /\ hasValidData (HTTPRequestData3 [] "POST" "") = false
  /\ hasValidData (HTTPRequestData4 [] "GET" "/x" "AAAAAAAAAAAAAAAAAAAAAAA") = false.
Proof.
  split; [| repeat split; reflexivity].
  intros r. unfold hasValidData.
  destruct (str_empty (method r)) eqn:Hm; simpl.
  - apply str_empty_true in Hm. rewrite Hm. split; [discriminate |].
    intros [Hin _]. unfold allowed_methods in Hin. simpl in Hin.
    intuition discriminate.
  - destruct (str_empty (uri r)) eqn:Hu; simpl.
    + apply str_empty_true in Hu. split; [discriminate | tauto].
    + apply str_empty_false in Hu.
      destruct (String.eqb (method r) "GET" || String.eqb (method r) "POST"
                || String.eqb (method r) "HEAD" || String.eqb (method r) "PUT"
                || String.eqb (method r) "DELETE") eqn:Hw; simpl.
      * apply method_allowed_iff in Hw.
        destruct (negb (str_empty (offlineNonce r))
                  && negb (Nat.eqb (str_size (offlineNonce r)) 24)) eqn:Hn.
        -- split; [discriminate |]. intros (_ & _ & Hk).
           apply nonce_check_iff in Hk. congruence.
        -- apply nonce_check_iff in Hn. tauto.
      * split; [discriminate |]. intros (Hin & _).
        apply method_allowed_iff in Hin. congruence.
Qed.

Lemma allowed_method_not_empty (m : string) : In m allowed_methods -> str_empty m = false.
Proof.
  unfold allowed_methods. simpl.
  intros [<- | [<- | [<- | [<- | [<- | []]]]]]; reflexivity.
Qed.

(** What [hasValidData] accepts. *)
Lemma hasValidData_accepts (b : bytes) (m u n : string) :
  In m allowed_methods -> u <> "" -> n = "" \/ String.length n = 24 ->
  hasValidData (mkHTTPRequestData b m u n) = true.
Proof.
  intros Hm Hu Hn. unfold hasValidData. cbn [method uri offlineNonce].
  rewrite (allowed_method_not_empty m Hm).
  apply str_empty_false in Hu. rewrite Hu. cbn [orb].
  apply method_allowed_iff in Hm. rewrite Hm. cbn [negb].
  apply nonce_check_iff in Hn. rewrite Hn. reflexivity.
Qed.

(** C10. With an accepted method and a uri, every offline nonce of 24
    characters passes [hasValidData], whatever its characters: the check
    is on the length only, and a nonce of 24 characters outside the Base64
    alphabet passes as well. *)
Theorem hasValidData_nonce_length_only (b : bytes) (m u n : string)
    (Hm : In m allowed_methods) (Hu : u <> "") (Hn : String.length n = 24) :
  hasValidData (HTTPRequestData4 b m u n) = true
  /\ exists n', String.length n' = 24 /\ is_base64 n' = false
                /\ hasValidData (HTTPRequestData4 b m u n') = true.
Proof.
  split.
  - apply hasValidData_accepts; auto.
  - exists "!!!!!!!!!!!!!!!!!!!!!!!!". repeat split.
    apply hasValidData_accepts; auto.
Qed.

Lemma hasValidData_nonce_length_only_witness :
  hasValidData (HTTPRequestData4 [] "POST" "/pa/signature/validate"
                  "?not*base64?not*base64?!") = true
  /\ exists n', String.length n' = 24 /\ is_base64 n' = false
                /\ hasValidData (HTTPRequestData4 [] "POST" "/pa/signature/validate" n') = true.
Proof.
  apply (hasValidData_nonce_length_only [] "POST" "/pa/signature/validate"
           "?not*base64?not*base64?!").
  - simpl. auto.
  - discriminate.
  - reflexivity.
Defined.

Lemma State_eqb_eq (a b : State) : State_eqb a b = true <-> a = b.
Proof. destruct a, b; unfold State_eqb; simpl; split; congruence. Qed.

Lemma State_eqb_neq (a b : State) : State_eqb a b = false <-> a <> b.
Proof. destruct a, b; unfold State_eqb; simpl; split; congruence. Qed.

(** C4. [isProtocolUpgradeAvailable] is true exactly when the state is
    Active, the current version is strictly below the upgrade version and the
    upgrade version is at most MaxSupported; in every other state it is false
    whatever the versions. *)
Theorem isProtocolUpgradeAvailable_iff (MaxSupported : Z) :
  (forall s : ActivationStatus,
      isProtocolUpgradeAvailable MaxSupported s = true <->
      state s = Active /\ (currentVersion s < upgradeVersion s)%Z
      /\ (upgradeVersion s <= MaxSupported)%Z)
  /\ (forall (st : State) (fc mfc cv uv : Z),
        In st [Created; OtpUsed; Blocked; Removed] ->
        isProtocolUpgradeAvailable MaxSupported (mkActivationStatus st fc mfc cv uv) = false).
Proof.
  split.
  - intros s. unfold isProtocolUpgradeAvailable.
    destruct (State_eqb (state s) Active) eqn:Hs.
    + apply State_eqb_eq in Hs.
      destruct (Z.ltb_spec (currentVersion s) (upgradeVersion s)) as [Hlt | Hge].
      * rewrite Z.leb_le. tauto.
      * split; [discriminate | lia].
    + apply State_eqb_neq in Hs. split; [discriminate | tauto].
  - intros st fc mfc cv uv Hin. unfold isProtocolUpgradeAvailable. simpl.
    destruct st; simpl in Hin; try reflexivity.
    exfalso. intuition discriminate.
Qed.

(** C6. [buildAuthHeaderValue] is the fixed template: the opening literal,
    then version, activationId, applicationKey, nonce, factor and signature,
    in this order, each followed by its literal.  The header depends on the
    signature through these six values only. *)
Theorem buildAuthHeaderValue_template (K : AuthFragments) :
  (forall s : HTTPRequestDataSignature,
      buildAuthHeaderValue K s =
      PA_AUTH_FRAGMENT_BEGIN_VERSION K ++ version s ++
      PA_AUTH_FRAGMENT_ACTIVATION_ID K ++ activationId s ++
      PA_AUTH_FRAGMENT_APPLICATION_KEY K ++ applicationKey s ++
      PA_AUTH_FRAGMENT_NONCE K ++ nonce s ++
      PA_AUTH_FRAGMENT_SIGNATURE_TYPE K ++ factor s ++
      PA_AUTH_FRAGMENT_SIGNATURE K ++ signature s ++
      PA_AUTH_FRAGMENT_END K)
  /\ (forall s : HTTPRequestDataSignature,
        buildAuthHeaderValue K s = header_template K (header_fields s)).
Proof.
  split; intros s; unfold buildAuthHeaderValue, str_assign, str_append,
    header_template, header_fields, interleave;
    rewrite ?str_append_nil_r, ?str_append_assoc; reflexivity.
Qed.

End PublicTypesFacts.

Section HeaderExamples.

Import PublicTypes.

(** The header of the spec's template, for given field values. *)
Example buildAuthHeaderValue_spec_template :
  buildAuthHeaderValue spec_fragments
    (mkHTTPRequestDataSignature "3.1" "ACT-ID" "APP-KEY" "Tm9uY2U=" "possession_knowledge"
       "12345678-87654321")
  = "PowerAuth pa_version=" ++ dquote ++ "3.1" ++ dquote ++
    ", pa_activation_id=" ++ dquote ++ "ACT-ID" ++ dquote ++
    ", pa_application_key=" ++ dquote ++ "APP-KEY" ++ dquote ++
    ", pa_nonce=" ++ dquote ++ "Tm9uY2U=" ++ dquote ++
    ", pa_signature_type=" ++ dquote ++ "possession_knowledge" ++ dquote ++
    ", pa_signature=" ++ dquote ++ "12345678-87654321" ++ dquote.
Proof. reflexivity. Qed.

Lemma str_length_append (x y : string) :
  String.length (String.append x y) = String.length x + String.length y.
Proof.
  induction x as [|c x IH]; [reflexivity |].
  rewrite str_append_cons. simpl. now rewrite IH.
Qed.

(** The size reserved by [buildAuthHeaderValue] is the size of the result
    when [PA_AUTH_FRAGMENTS_LENGTH] is the total length of the literals. *)
Lemma buildAuthHeaderValue_size (K : AuthFragments) (s : HTTPRequestDataSignature) :
  str_size (buildAuthHeaderValue K s) =
  str_size (activationId s) + str_size (applicationKey s) + str_size (nonce s)
  + str_size (factor s) + str_size (signature s) + str_size (version s)
  + (str_size (PA_AUTH_FRAGMENT_BEGIN_VERSION K) + str_size (PA_AUTH_FRAGMENT_ACTIVATION_ID K)
     + str_size (PA_AUTH_FRAGMENT_APPLICATION_KEY K) + str_size (PA_AUTH_FRAGMENT_NONCE K)
     + str_size (PA_AUTH_FRAGMENT_SIGNATURE_TYPE K) + str_size (PA_AUTH_FRAGMENT_SIGNATURE K)
     + str_size (PA_AUTH_FRAGMENT_END K)).
Proof.
  unfold buildAuthHeaderValue, str_assign, str_append, str_size.
  rewrite !str_length_append. lia.
Qed.

End HeaderExamples.

(** ** The activation status seen from Objective-C *)

Section StatusFacts.

Import PublicTypes PA2Types.
Local Open Scope Z_scope.

(** The status of the spec's scenario: state 3, no failed attempt out of 5. *)
Example remainingAttempts_scenario :
  remainingAttempts (mkActivationStatus Active 0 5 3 3) = 5.
Proof. reflexivity. Qed.



End StatusFacts.

(** ** Tokens and the token store *)

Section TokenFacts.

Import Crypto Token.
Context {P : Primitives}.

Lemma generateHeader_Some_iff (t : PowerAuthToken) (rnd : bytes) (now_ms : Z) :
  canGenerateHeader t = true <-> exists h, generateHeader t rnd now_ms = Some h.
Proof.
  unfold canGenerateHeader, generateHeader, isValid.
  destruct (tokenData t) as [td|], (tokenStore t) as [st|]; simpl;
    try destruct (canRequestForAccessToken st); simpl;
    split; intros H; try discriminate; eauto; destruct H; discriminate.
Qed.

(** C8. [canGenerateHeader] is true exactly when the token is valid and its
    store answers [canRequestForAccessToken]; [generateHeader] gives no header
    when the token is invalid or the store cannot be asked for access
    tokens. *)
Theorem canGenerateHeader_iff (t : PowerAuthToken) :
  (canGenerateHeader t = true <->
   isValid t = true /\
   exists st, tokenStore t = Some st /\ canRequestForAccessToken st = true)
  /\ (forall (rnd : bytes) (now_ms : Z),
        isValid t = false \/
        (forall st, tokenStore t = Some st -> canRequestForAccessToken st = false) ->
        generateHeader t rnd now_ms = None)
  /\ (forall (rnd : bytes) (now_ms : Z),
        canGenerateHeader t = false <-> generateHeader t rnd now_ms = None).
Proof.
  split; [| split].
  - unfold canGenerateHeader, isValid.
    destruct (tokenData t) as [td|], (tokenStore t) as [st|]; simpl.
    + split.
      * intros H. split; [reflexivity | eauto].
      * intros (_ & st' & Heq & Hc). injection Heq as ->. exact Hc.
    + split; [discriminate |]. intros (_ & st' & Heq & _). discriminate.
    + split; [discriminate |]. intros (H & _). discriminate.
    + split; [discriminate |]. intros (H & _). discriminate.
  - intros rnd now_ms [Hinv | Hst]; unfold generateHeader, isValid in *.
    + destruct (tokenData t); [discriminate | reflexivity].
    + destruct (tokenData t); [| reflexivity].
      destruct (tokenStore t) as [st|]; [| reflexivity].
      now rewrite (Hst st eq_refl).
  - intros rnd now_ms.
    pose proof (generateHeader_Some_iff t rnd now_ms) as [H1 H2].
    destruct (canGenerateHeader t), (generateHeader t rnd now_ms) as [h|];
      split; intros H; try reflexivity; try discriminate.
    + destruct (H1 eq_refl) as [h Hh]. discriminate.
    + specialize (H2 (ex_intro _ h eq_refl)). discriminate.
Qed.

(** C9, as stated, fails: [removeAllLocalTokens] deletes a local token with
    no confirmation from the server, and it is not [removeLocalTokenWithName]. *)
Lemma removeLocalToken_not_the_only_one :
  let td := mkTokenData "t" "id" [] in
  let st := mkTokenStore true {["t" := td]} in
  deletes_token CallRemoveAllLocalTokens "t" st
  /\ server_confirmed CallRemoveAllLocalTokens = false
  /\ CallRemoveAllLocalTokens <> CallRemoveLocalToken "t".
Proof.
  cbv zeta. unfold deletes_token. cbn [store_after removeAllLocalTokens localTokens].
  repeat split.
  - rewrite lookup_singleton_eq. discriminate.
  - discriminate.
Qed.

(** C9, amended. A failed removal request leaves the store as it was; a
    successful one deletes the named token and no other.  A call that
    deletes a local token is a removal of that token confirmed by the
    server, or one of the two local removals, [removeLocalTokenWithName] of
    that token or [removeAllLocalTokens]; the local removals delete with no
    answer from the server. *)
Theorem local_token_deleted_only_by_removals (name : string) (st : TokenStore) :
  (forall error : string,
      removeAccessTokenWithName name (ReplyFailed error) st = (st, (false, Some error)))
  /\ (localTokens (fst (removeAccessTokenWithName name ReplySucceeded st)) !! name = None
      /\ snd (removeAccessTokenWithName name ReplySucceeded st) = (true, None)
      /\ forall other : string, other <> name ->
           localTokens (fst (removeAccessTokenWithName name ReplySucceeded st)) !! other
           = localTokens st !! other)
  /\ (forall c : StoreCall,
        deletes_token c name st ->
        c = CallRemoveAccessToken name ReplySucceeded
        \/ c = CallRemoveLocalToken name
        \/ c = CallRemoveAllLocalTokens)
  /\ (localTokens (removeLocalTokenWithName name st) !! name = None
      /\ forall other : string, other <> name ->
           localTokens (removeLocalTokenWithName name st) !! other
           = localTokens st !! other)
  /\ (forall other : string, localTokens (removeAllLocalTokens st) !! other = None).
Proof.
  split; [reflexivity |].
  split.
  { repeat split.
    - simpl. apply lookup_delete_eq.
    - intros other Hne. simpl. apply lookup_delete_ne. congruence. }
  split.
  { intros c [Hin Hout].
    destruct c as [| n reply | n reply | | n | | n]; cbn [store_after cancelTask] in Hout;
      try contradiction.
    - exfalso. unfold requestAccessTokenWithName in Hout.
      destruct (localTokens st !! n) as [td|] eqn:Hn; [contradiction |].
      destruct reply as [td|]; [| contradiction].
      cbn [fst localTokens] in Hout.
      destruct (decide (n = name)) as [-> | Hne].
      + rewrite lookup_insert_eq in Hout. discriminate.
      + rewrite lookup_insert_ne in Hout by exact Hne. contradiction.
    - destruct reply as [| error]; [| contradiction].
      cbn [removeAccessTokenWithName fst localTokens] in Hout.
      destruct (decide (n = name)) as [-> | Hne]; [now left |].
      rewrite lookup_delete_ne in Hout by exact Hne. contradiction.
    - right; left.
      cbn [removeLocalTokenWithName localTokens] in Hout.
      destruct (decide (n = name)) as [-> | Hne]; [reflexivity |].
      rewrite lookup_delete_ne in Hout by exact Hne. contradiction.
    - right; right. reflexivity. }
  split.
  { split.
    - simpl. apply lookup_delete_eq.
    - intros other Hne. simpl. apply lookup_delete_ne. congruence. }
  intros other. simpl. apply lookup_empty.
Qed.

End TokenFacts.

(** ** Octet strings *)

Section OctetFacts.

Local Open Scope list_scope.
Import Octets.
Local Open Scope Z_scope.

Lemma byte_xor_involutive (a b : Byte.byte) : byte_xor (byte_xor a b) b = a.
Proof.
  unfold byte_xor.
  rewrite <- (Byte.of_bits_to_bits a) at 2.
  destruct (Byte.to_bits a) as (a0 & a1 & a2 & a3 & a4 & a5 & a6 & a7).
  destruct (Byte.to_bits b) as (b0 & b1 & b2 & b3 & b4 & b5 & b6 & b7).
  rewrite Byte.to_bits_of_bits.
  now rewrite !xorb_assoc, !xorb_nilpotent, !xorb_false_r.
Qed.

Lemma xor_bytes_length (a m : bytes) : List.length (xor_bytes a m) = List.length a.
Proof.
  revert m. induction a as [|x a IH]; intros [|y m]; simpl; auto.
Qed.

Lemma xor_bytes_involutive (a m : bytes) : xor_bytes (xor_bytes a m) m = a.
Proof.
  revert m. induction a as [|x a IH]; intros [|y m]; simpl; auto.
  now rewrite byte_xor_involutive, IH.
Qed.

Lemma bytes_eqb_eq (a b : bytes) : bytes_eqb a b = true <-> a = b.
Proof.
  revert b. induction a as [|x a IH]; intros [|y b]; simpl; split;
    try congruence; try discriminate.
  - rewrite andb_true_iff. intros [Hxy Hab].
    apply Byte.byte_dec_bl in Hxy. apply IH in Hab. congruence.
  - intros [= -> ->]. rewrite andb_true_iff. split.
    + now apply Byte.byte_dec_lb.
    + now apply IH.
Qed.

Lemma bytes_eqb_refl (a : bytes) : bytes_eqb a a = true.
Proof. now apply bytes_eqb_eq. Qed.

Lemma byte_to_Z_range (b : Byte.byte) : 0 <= byte_to_Z b < 256.
Proof.
  unfold byte_to_Z. pose proof (Byte.to_N_bounded b). lia.
Qed.

Lemma byte_of_to_Z (b : Byte.byte) : byte_of_Z (byte_to_Z b) = b.
Proof.
  unfold byte_of_Z. pose proof (byte_to_Z_range b) as Hr.
  rewrite Z.mod_small by lia. unfold byte_to_Z. rewrite N2Z.id.
  now rewrite Byte.of_to_N.
Qed.

Lemma byte_to_of_Z (z : Z) : byte_to_Z (byte_of_Z z) = z mod 256.
Proof.
  unfold byte_of_Z, byte_to_Z.
  pose proof (Z.mod_pos_bound z 256 ltac:(lia)) as Hr.
  destruct (Byte.of_N (Z.to_N (z mod 256))) as [b|] eqn:Hb.
  - apply Byte.to_of_N in Hb. rewrite Hb. lia.
  - apply Byte.of_N_None_iff in Hb. lia.
Qed.

Lemma be_fold_acc (bs : bytes) (acc : Z) :
  fold_left (fun acc b => acc * 256 + byte_to_Z b) bs acc
  = acc * 256 ^ Z.of_nat (List.length bs) + be_to_Z bs.
Proof.
  unfold be_to_Z. revert acc.
  induction bs as [|b bs IH]; intros acc.
  - simpl. lia.
  - cbn [fold_left List.length]. rewrite IH, (IH (0 * 256 + byte_to_Z b)).
    rewrite Nat2Z.inj_succ, Z.pow_succ_r by lia. lia.
Qed.

Lemma be_to_Z_cons (b : Byte.byte) (bs : bytes) :
  be_to_Z (b :: bs) = byte_to_Z b * 256 ^ Z.of_nat (List.length bs) + be_to_Z bs.
Proof.
  unfold be_to_Z at 1. cbn [fold_left]. rewrite be_fold_acc. lia.
Qed.

Lemma be_to_Z_app (xs ys : bytes) :
  be_to_Z (xs ++ ys) = be_to_Z xs * 256 ^ Z.of_nat (List.length ys) + be_to_Z ys.
Proof.
  unfold be_to_Z at 1. rewrite fold_left_app. fold (be_to_Z xs).
  apply be_fold_acc.
Qed.

Lemma be_to_Z_range (bs : bytes) : 0 <= be_to_Z bs < 256 ^ Z.of_nat (List.length bs).
Proof.
  induction bs as [|b bs IH].
  - unfold be_to_Z. simpl. lia.
  - rewrite be_to_Z_cons. cbn [List.length].
    rewrite Nat2Z.inj_succ, Z.pow_succ_r by lia.
    pose proof (byte_to_Z_range b). nia.
Qed.

Lemma Z_to_be_length (n : nat) (z : Z) : List.length (Z_to_be n z) = n.
Proof.
  revert z. induction n as [|n IH]; intros z; simpl; [reflexivity |].
  rewrite length_app, IH. simpl. lia.
Qed.

Lemma be_to_Z_to_be (n : nat) (z : Z) :
  be_to_Z (Z_to_be n z) = z mod 256 ^ Z.of_nat n.
Proof.
  revert z. induction n as [|n IH]; intros z.
  - simpl. unfold be_to_Z. simpl. now rewrite Z.mod_1_r.
  - cbn [Z_to_be]. rewrite be_to_Z_app, IH. cbn [List.length].
    change (be_to_Z [byte_of_Z z]) with (0 * 256 + byte_to_Z (byte_of_Z z)).
    rewrite byte_to_of_Z.
    change (256 ^ Z.of_nat 1) with 256.
    rewrite Nat2Z.inj_succ, Z.pow_succ_r by lia.
    assert (H256 : 0 < 256 ^ Z.of_nat n) by (apply Z.pow_pos_nonneg; lia).
    rewrite Z.rem_mul_r by lia.
    lia.
Qed.

Lemma Z_to_be_to_Z (bs : bytes) : Z_to_be (List.length bs) (be_to_Z bs) = bs.
Proof.
  induction bs as [|b bs IH] using rev_ind; [reflexivity |].
  rewrite length_app, Nat.add_comm. cbn [List.length Nat.add Z_to_be].
  rewrite be_to_Z_app. cbn [List.length].
  change (256 ^ Z.of_nat 1) with 256.
  change (be_to_Z [b]) with (0 * 256 + byte_to_Z b).
  pose proof (byte_to_Z_range b) as Hb.
  f_equal.
  - replace ((be_to_Z bs * 256 + (0 * 256 + byte_to_Z b)) / 256) with (be_to_Z bs).
    + exact IH.
    + apply Z.div_unique with (r := byte_to_Z b); lia.
  - f_equal. rewrite <- (byte_of_to_Z b) at 2.
    unfold byte_of_Z. f_equal. f_equal.
    replace (be_to_Z bs * 256 + (0 * 256 + byte_to_Z b)) with (byte_to_Z b + be_to_Z bs * 256) by lia.
    rewrite Z.mod_add by lia. reflexivity.
Qed.

End OctetFacts.

(** ** PKCS#7 padding and cipher block chaining *)

Section ModesFacts.

Local Open Scope list_scope.
Import Octets Crypto.
Context {P : Primitives} {OK : PrimitivesOk P}.
Local Open Scope nat_scope.

Lemma pkcs7_pad_length_range (len : nat) : 1 <= pkcs7_pad_length len <= block_size.
Proof.
  unfold pkcs7_pad_length, block_size.
  pose proof (Nat.mod_upper_bound len 16 ltac:(lia)). lia.
Qed.

Lemma pkcs7_pad_total_length (data : bytes) :
  List.length (pkcs7_pad data) = block_size * (List.length data / block_size + 1).
Proof.
  unfold pkcs7_pad. rewrite length_app, repeat_length.
  unfold pkcs7_pad_length, block_size.
  pose proof (Nat.div_mod_eq (List.length data) 16).
  pose proof (Nat.mod_upper_bound (List.length data) 16 ltac:(lia)). lia.
Qed.

Lemma pkcs7_pad_mod (data : bytes) : List.length (pkcs7_pad data) mod block_size = 0.
Proof.
  rewrite pkcs7_pad_total_length, Nat.mul_comm. apply Nat.Div0.mod_mul.
Qed.

Lemma pad_byte_value (n : nat) :
  n <= block_size -> Z.to_nat (byte_to_Z (byte_of_Z (Z.of_nat n))) = n.
Proof.
  unfold block_size. intros Hn. rewrite byte_to_of_Z.
  rewrite Z.mod_small by lia. apply Nat2Z.id.
Qed.

Lemma pkcs7_unpad_pad (data : bytes) : pkcs7_unpad (pkcs7_pad data) = Some data.
Proof.
  unfold pkcs7_unpad.
  pose proof (pkcs7_pad_length_range (List.length data)) as Hr.
  assert (Hlen : List.length (pkcs7_pad data)
                 = List.length data + pkcs7_pad_length (List.length data)).
  { unfold pkcs7_pad. now rewrite length_app, repeat_length. }
  rewrite Hlen.
  unfold pkcs7_pad at 1. rewrite rev_app_distr, rev_repeat.
  destruct (pkcs7_pad_length (List.length data)) as [|k] eqn:Hk; [lia |].
  cbn [repeat List.app]. rewrite <- Hk.
  rewrite pad_byte_value by lia.
  replace (List.length data + pkcs7_pad_length (List.length data)
           - pkcs7_pad_length (List.length data)) with (List.length data) by lia.
  unfold pkcs7_pad.
  rewrite skipn_app, skipn_all, Nat.sub_diag, firstn_app, firstn_all, Nat.sub_diag.
  cbn [skipn firstn List.app]. rewrite app_nil_r, bytes_eqb_refl.
  destruct (1 <=? pkcs7_pad_length (List.length data)) eqn:H1;
    [| apply Nat.leb_gt in H1; lia].
  destruct (pkcs7_pad_length (List.length data) <=? block_size) eqn:H2;
    [| apply Nat.leb_gt in H2; lia].
  destruct (pkcs7_pad_length (List.length data)
            <=? List.length data + pkcs7_pad_length (List.length data)) eqn:H3;
    [| apply Nat.leb_gt in H3; lia].
  reflexivity.
Qed.

Lemma concat_chunks_fuel (fuel : nat) (data : bytes) :
  List.length data <= fuel -> List.concat (chunks_fuel fuel data) = data.
Proof.
  revert data. induction fuel as [|fuel IH]; intros data Hlen.
  - destruct data; [reflexivity | simpl in Hlen; lia].
  - destruct data as [|x data]; [reflexivity |].
    cbn [chunks_fuel List.concat]. rewrite IH.
    + apply firstn_skipn.
    + rewrite length_skipn. unfold block_size. simpl in *. lia.
Qed.

Lemma concat_chunks (data : bytes) : List.concat (chunks data) = data.
Proof. apply concat_chunks_fuel. unfold chunks. lia. Qed.

Lemma chunks_fuel_full (fuel : nat) (data : bytes) :
  List.length data <= fuel -> List.length data mod block_size = 0 ->
  Forall full_block (chunks_fuel fuel data).
Proof.
  revert data. induction fuel as [|fuel IH]; intros data Hlen Hmod.
  - constructor.
  - destruct data as [|x data]; [constructor |].
    cbn [chunks_fuel].
    assert (Hge : block_size <= List.length (x :: data)).
    { unfold block_size in *.
      pose proof (Nat.div_mod_eq (List.length (x :: data)) 16) as Hd.
      rewrite Hmod in Hd.
      destruct (List.length (x :: data) / 16) eqn:Hq; [simpl in Hd; lia | lia]. }
    constructor.
    + unfold full_block. rewrite length_firstn. lia.
    + apply IH.
      * rewrite length_skipn. unfold block_size in *. simpl in *. lia.
      * rewrite length_skipn.
        unfold block_size in *.
        pose proof (Nat.div_mod_eq (List.length (x :: data)) 16) as Hd.
        rewrite Hmod in Hd.
        replace (List.length (x :: data) - 16)
          with ((List.length (x :: data) / 16 - 1) * 16) by lia.
        apply Nat.Div0.mod_mul.
Qed.

Lemma chunks_full (data : bytes) :
  List.length data mod block_size = 0 -> Forall full_block (chunks data).
Proof. intros H. apply chunks_fuel_full; [unfold chunks; lia | exact H]. Qed.

Lemma length_concat_full (blocks : list bytes) :
  Forall full_block blocks ->
  List.length (List.concat blocks) = block_size * List.length blocks.
Proof.
  induction 1 as [|blk blocks Hblk _ IH]; [reflexivity |].
  cbn [List.concat List.length]. rewrite length_app, IH, Hblk. lia.
Qed.

Lemma chunks_fuel_concat (fuel : nat) (blocks : list bytes) :
  Forall full_block blocks -> List.length blocks <= fuel ->
  chunks_fuel fuel (List.concat blocks) = blocks.
Proof.
  intros Hfull. revert fuel.
  induction Hfull as [|blk blocks Hblk _ IH]; intros fuel Hlen.
  - destruct fuel; reflexivity.
  - destruct fuel as [|fuel]; [simpl in Hlen; lia |].
    cbn [List.concat chunks_fuel].
    destruct (blk ++ List.concat blocks) as [|x rest] eqn:Happ.
    + apply (f_equal (@List.length _)) in Happ.
      rewrite length_app, Hblk in Happ. unfold block_size in Happ. simpl in Happ. lia.
    + rewrite <- Happ.
      rewrite firstn_app, skipn_app, <- Hblk, firstn_all, skipn_all, Nat.sub_diag.
      cbn [firstn skipn List.app]. rewrite app_nil_r.
      f_equal. apply IH. simpl in Hlen. lia.
Qed.

Lemma chunks_concat (blocks : list bytes) :
  Forall full_block blocks -> chunks (List.concat blocks) = blocks.
Proof.
  intros Hfull. unfold chunks. apply chunks_fuel_concat; [exact Hfull |].
  rewrite length_concat_full by exact Hfull. unfold block_size. lia.
Qed.

Lemma cbc_encrypt_full (k prev : bytes) (blocks : list bytes) :
  Forall full_block blocks -> Forall full_block (cbc_encrypt_blocks k prev blocks).
Proof.
  intros Hfull. revert prev.
  induction Hfull as [|blk blocks Hblk _ IH]; intros prev; cbn [cbc_encrypt_blocks];
    constructor.
  - unfold full_block. apply AES_block_length. now rewrite xor_bytes_length.
  - apply IH.
Qed.

Lemma cbc_encrypt_length (k prev : bytes) (blocks : list bytes) :
  List.length (cbc_encrypt_blocks k prev blocks) = List.length blocks.
Proof.
  revert prev. induction blocks as [|blk blocks IH]; intros prev; simpl; auto.
Qed.

Lemma cbc_decrypt_encrypt (k prev : bytes) (blocks : list bytes) :
  Forall full_block blocks ->
  cbc_decrypt_blocks k prev (cbc_encrypt_blocks k prev blocks) = blocks.
Proof.
  intros Hfull. revert prev.
  induction Hfull as [|blk blocks Hblk _ IH]; intros prev; [reflexivity |].
  cbn [cbc_encrypt_blocks cbc_decrypt_blocks].
  rewrite AES_decrypt_encrypt by now rewrite xor_bytes_length.
  now rewrite xor_bytes_involutive, IH.
Qed.

Lemma AES_CBC_Encrypt_length (k iv data : bytes) :
  List.length (AES_CBC_Encrypt_Padding k iv data)
  = block_size * (List.length data / block_size + 1).
Proof.
  unfold AES_CBC_Encrypt_Padding.
  pose proof (chunks_full (pkcs7_pad data) (pkcs7_pad_mod data)) as Hfull.
  rewrite length_concat_full by (apply cbc_encrypt_full; exact Hfull).
  rewrite cbc_encrypt_length.
  rewrite <- length_concat_full by exact Hfull.
  rewrite concat_chunks. apply pkcs7_pad_total_length.
Qed.

Lemma AES_CBC_Encrypt_nonempty (k iv data : bytes) :
  bytes_empty (AES_CBC_Encrypt_Padding k iv data) = false.
Proof.
  pose proof (AES_CBC_Encrypt_length k iv data) as Hlen.
  destruct (AES_CBC_Encrypt_Padding k iv data); [| reflexivity].
  unfold block_size in Hlen. simpl in Hlen. lia.
Qed.

Lemma AES_CBC_Decrypt_Encrypt (k iv data : bytes) :
  AES_CBC_Decrypt_Padding k iv (AES_CBC_Encrypt_Padding k iv data) = Some data.
Proof.
  unfold AES_CBC_Decrypt_Padding.
  rewrite AES_CBC_Encrypt_nonempty, AES_CBC_Encrypt_length.
  rewrite Nat.mul_comm, Nat.Div0.mod_mul. cbn [Nat.eqb negb orb].
  unfold AES_CBC_Encrypt_Padding.
  pose proof (chunks_full (pkcs7_pad data) (pkcs7_pad_mod data)) as Hfull.
  rewrite chunks_concat by (apply cbc_encrypt_full; exact Hfull).
  rewrite cbc_decrypt_encrypt by exact Hfull.
  rewrite concat_chunks. apply pkcs7_unpad_pad.
Qed.

End ModesFacts.

(** ** Public keys on P-256 *)

Section CurveFacts.

Local Open Scope list_scope.
Import Octets P256 ECIES.
Local Open Scope Z_scope.

Lemma to_Z_p : BigZ.to_Z p = P_Z.
Proof. vm_compute. reflexivity. Qed.

Lemma P_Z_pos : 0 < P_Z.
Proof. reflexivity. Qed.

Lemma P_Z_odd : Z.odd P_Z = true.
Proof. reflexivity. Qed.

Lemma pow_mod_pos_range (x : bigZ) (e : positive) :
  0 <= BigZ.to_Z (pow_mod_pos x e) < P_Z.
Proof.
  destruct e; cbn [pow_mod_pos]; cbv zeta; rewrite BigZ.spec_modulo, to_Z_p;
    apply Z.mod_pos_bound, P_Z_pos.
Qed.

Lemma sqrt_mod_range (x : bigZ) : 0 <= BigZ.to_Z (sqrt_mod x) < P_Z.
Proof. unfold sqrt_mod, sqrt_exponent, pow_mod. apply pow_mod_pos_range. Qed.

(** [on_curve] read on integers. *)
Lemma on_curve_spec (x y : bigZ) :
  on_curve x y = true <->
  0 <= BigZ.to_Z x < P_Z /\ 0 <= BigZ.to_Z y < P_Z /\
  (BigZ.to_Z y * BigZ.to_Z y) mod P_Z = BigZ.to_Z (curve_rhs x).
Proof.
  unfold on_curve.
  rewrite !andb_true_iff, !BigZ.spec_leb, !BigZ.spec_ltb, BigZ.spec_eqb,
    BigZ.spec_modulo, BigZ.spec_mul, to_Z_p.
  change (BigZ.to_Z 0) with 0.
  rewrite !Z.leb_le, !Z.ltb_lt, Z.eqb_eq. tauto.
Qed.

Lemma square_opposite (y : Z) : ((P_Z - y) * (P_Z - y)) mod P_Z = (y * y) mod P_Z.
Proof.
  replace ((P_Z - y) * (P_Z - y)) with (y * y + (P_Z - 2 * y) * P_Z) by ring.
  apply Z.mod_add. pose proof P_Z_pos. lia.
Qed.

Lemma Some_eq_inv {A : Type} (u v : A) : Some u = Some v -> u = v.
Proof. intros H. now injection H. Qed.

Lemma xorb_flip (u v : bool) : Bool.eqb u v = false -> xorb true u = v.
Proof. destruct u, v; simpl; congruence. Qed.

Lemma is_odd_opposite (y : bigZ) : is_odd (p - y)%bigZ = xorb true (is_odd y).
Proof.
  unfold is_odd. rewrite BigZ.spec_sub, to_Z_p, Z.odd_sub, P_Z_odd. reflexivity.
Qed.

Lemma decompress_sound (odd : bool) (x : bigZ) (Q : point) :
  0 <= BigZ.to_Z x ->
  decompress odd x = Some Q ->
  exists y, Q = Affine x y /\ on_curve x y = true /\ is_odd y = odd.
Proof.
  intros Hx. unfold decompress.
  destruct (BigZ.ltb x p) eqn:Hxp; [| discriminate].
  remember (sqrt_mod (curve_rhs x)) as y eqn:Ey.
  destruct (BigZ.eqb ((y * y) mod p) (curve_rhs x)) eqn:Hsq; [| discriminate].
  pose proof (sqrt_mod_range (curve_rhs x)) as Hy. rewrite <- Ey in Hy.
  rewrite BigZ.spec_ltb, to_Z_p, Z.ltb_lt in Hxp.
  rewrite BigZ.spec_eqb, BigZ.spec_modulo, BigZ.spec_mul, to_Z_p, Z.eqb_eq in Hsq.
  destruct (Bool.eqb (is_odd y) odd) eqn:Hpar.
  - destruct (BigZ.ltb y p); [| discriminate].
    intros Heq. apply Some_eq_inv in Heq. subst Q.
    exists y. split; [reflexivity |]. split.
    + apply on_curve_spec.
      split; [split; assumption |]. split; [exact Hy | exact Hsq].
    + apply Bool.eqb_prop. exact Hpar.
  - destruct (BigZ.ltb (p - y)%bigZ p) eqn:Hlt.
    2:{ discriminate. }
    intros Heq. apply Some_eq_inv in Heq.
    subst Q.
    exists (p - y)%bigZ.
    split; [reflexivity |].
    rewrite BigZ.spec_ltb, BigZ.spec_sub, to_Z_p, Z.ltb_lt in Hlt.
    split.
    + apply on_curve_spec. rewrite BigZ.spec_sub, to_Z_p.
      rewrite square_opposite.
      destruct Hy as [Hy0 Hy1].
      split; [split; assumption |]. split; [| exact Hsq].
      split; [| exact Hlt].
      apply Z.le_0_sub, Z.lt_le_incl, Hy1.
    + rewrite is_odd_opposite.
      apply xorb_flip, Hpar.
Qed.

Lemma byte_eqb_eq (x y : Byte.byte) : Byte.eqb x y = true -> x = y.
Proof. apply Byte.byte_dec_bl. Qed.

Lemma compressed_sound (odd : bool) (rest : bytes) (Q : point) :
  List.length rest = 32%nat ->
  decompress odd (BigZ.of_Z (be_to_Z rest)) = Some Q ->
  valid_public_key ((if odd then Byte.x03 else Byte.x02) :: rest).
Proof.
  intros Hl Hd.
  apply decompress_sound in Hd.
  - destruct Hd as (y & _ & Hon & Hodd).
    exists (BigZ.of_Z (be_to_Z rest)), y. split; [exact Hon |]. left.
    rewrite Hodd, BigZ.spec_of_Z, <- Hl. now rewrite Z_to_be_to_Z.
  - rewrite BigZ.spec_of_Z. apply be_to_Z_range.
Qed.

Lemma halves_length (rest : bytes) :
  List.length rest = 64%nat ->
  List.length (firstn 32 rest) = 32%nat /\ List.length (skipn 32 rest) = 32%nat.
Proof. intros Hl. rewrite length_firstn, length_skipn. lia. Qed.

Lemma uncompressed_sound (rest : bytes) :
  List.length rest = 64%nat ->
  on_curve (BigZ.of_Z (be_to_Z (firstn 32 rest)))
           (BigZ.of_Z (be_to_Z (skipn 32 rest))) = true ->
  valid_public_key (Byte.x04 :: rest).
Proof.
  intros Hl Hon. apply halves_length in Hl as [H1 H2].
  exists (BigZ.of_Z (be_to_Z (firstn 32 rest))), (BigZ.of_Z (be_to_Z (skipn 32 rest))).
  split; [exact Hon |]. right. rewrite !BigZ.spec_of_Z.
  rewrite <- H1 at 1. rewrite <- H2 at 3.
  now rewrite !Z_to_be_to_Z, firstn_skipn.
Qed.

(** A key that [ECC_ImportPublicKey] accepts is the encoding of a point of
    the curve. *)
Lemma ECC_ImportPublicKey_sound (k : bytes) (Q : point) :
  ECC_ImportPublicKey k = Some Q -> valid_public_key k.
Proof.
  unfold ECC_ImportPublicKey. destruct k as [|tag rest]; [discriminate |].
  destruct (Byte.eqb tag Byte.x02 && Nat.eqb (List.length rest) 32) eqn:H2.
  { apply andb_true_iff in H2 as [Ht Hl].
    apply byte_eqb_eq in Ht. apply Nat.eqb_eq in Hl. subst tag.
    apply (compressed_sound false rest Q Hl). }
  destruct (Byte.eqb tag Byte.x03 && Nat.eqb (List.length rest) 32) eqn:H3.
  { apply andb_true_iff in H3 as [Ht Hl].
    apply byte_eqb_eq in Ht. apply Nat.eqb_eq in Hl. subst tag.
    apply (compressed_sound true rest Q Hl). }
  destruct (Byte.eqb tag Byte.x04 && Nat.eqb (List.length rest) 64) eqn:H4;
    [| discriminate].
  apply andb_true_iff in H4 as [Ht Hl].
  apply byte_eqb_eq in Ht. apply Nat.eqb_eq in Hl. subst tag.
  destruct (on_curve (BigZ.of_Z (be_to_Z (firstn 32 rest)))
              (BigZ.of_Z (be_to_Z (skipn 32 rest)))) eqn:Hon; [| discriminate].
  intros _. now apply uncompressed_sound.
Qed.

Lemma invalid_public_key_refused : ECC_ImportPublicKey invalid_public_key = None.
Proof. vm_compute. reflexivity. Qed.

Lemma invalid_key_refused (k : bytes) :
  ~ valid_public_key k \/ k = invalid_public_key -> ECC_ImportPublicKey k = None.
Proof.
  intros [Hinv | ->].
  - destruct (ECC_ImportPublicKey k) as [Q|] eqn:HQ; [| reflexivity].
    exfalso. apply Hinv. eapply ECC_ImportPublicKey_sound, HQ.
  - apply invalid_public_key_refused.
Qed.

End CurveFacts.

(** ** The ECIES engine *)

Section EngineFacts.

Local Open Scope list_scope.
Import Octets P256 Crypto ECIES.
Context {P : Primitives}.

Lemma java_compatible_value (k : bytes) : be_to_Z (java_compatible k) = be_to_Z k.
Proof.
  unfold java_compatible. destruct k as [|b0 k]; [reflexivity |].
  destruct (0x7F <? byte_to_Z b0)%Z; [| reflexivity].
  rewrite (be_to_Z_cons Byte.x00). change (byte_to_Z Byte.x00) with 0%Z. lia.
Qed.

Lemma master_private_key_import (d : Z) :
  (0 <= d < 2 ^ 256)%Z -> ECC_ImportPrivateKey (master_private_key d) = d.
Proof.
  intros Hd. unfold ECC_ImportPrivateKey, master_private_key, ECC_ExportPrivateKey.
  rewrite java_compatible_value, be_to_Z_to_be.
  apply Z.mod_small. change (256 ^ Z.of_nat 32)%Z with (2 ^ 256)%Z. exact Hd.
Qed.

Lemma encryptRequest_ok (e : ECIESEncryptor) (e_priv : Z) (rnd data : bytes)
    (out : ECIESCryptogram) (peer : point) (secret : bytes) :
  ECC_ImportPublicKey (enc_publicKey e) = Some peer ->
  ECDH_SharedSecret e_priv peer = Some secret ->
  encryptRequest e e_priv rnd data out =
  let envelope := derive_envelope secret (enc_sharedInfo1 e) in
  let ciphertext := AES_CBC_Encrypt_Padding (encKey envelope) (derive_iv envelope rnd) data in
  (EC_Ok,
   mkEncryptor (enc_publicKey e) (enc_sharedInfo1 e) (enc_sharedInfo2 e) (Some envelope),
   mkCryptogram ciphertext
     (HMAC_SHA256 (macKey envelope)
        (request_associated ciphertext (enc_sharedInfo2 e) (ECC_PublicKeyOfPrivate e_priv) rnd))
     (ECC_PublicKeyOfPrivate e_priv) rnd).
Proof. intros Hk Hs. unfold encryptRequest. rewrite Hk, Hs. reflexivity. Qed.

Lemma decryptRequest_ok (d : ECIESDecryptor) (c : ECIESCryptogram) (out : bytes)
    (e_pub : point) (secret plain : bytes) :
  ECC_ImportPublicKey (key c) = Some e_pub ->
  ECDH_SharedSecret (ECC_ImportPrivateKey (dec_privateKey d)) e_pub = Some secret ->
  mac c = HMAC_SHA256 (macKey (derive_envelope secret (dec_sharedInfo1 d)))
            (request_associated (body c) (dec_sharedInfo2 d) (key c) (nonce c)) ->
  AES_CBC_Decrypt_Padding (encKey (derive_envelope secret (dec_sharedInfo1 d)))
    (derive_iv (derive_envelope secret (dec_sharedInfo1 d)) (nonce c)) (body c) = Some plain ->
  decryptRequest d c out =
  (EC_Ok,
   mkDecryptor (dec_privateKey d) (dec_sharedInfo1 d) (dec_sharedInfo2 d)
     (Some (derive_envelope secret (dec_sharedInfo1 d))),
   plain).
Proof.
  intros Hk Hs Hm Hp. unfold decryptRequest. rewrite Hk, Hs. cbv zeta.
  rewrite <- Hm, bytes_eqb_refl, Hp. reflexivity.
Qed.

Lemma encryptResponse_ok (d : ECIESDecryptor) (rnd data : bytes)
    (out : ECIESCryptogram) (envelope : bytes) :
  dec_envelopeKey d = Some envelope ->
  encryptResponse d rnd data out =
  let ciphertext := AES_CBC_Encrypt_Padding (encKey envelope) (derive_iv envelope rnd) data in
  (EC_Ok, d,
   mkCryptogram ciphertext
     (HMAC_SHA256 (macKey envelope) (response_associated ciphertext (dec_sharedInfo2 d) rnd))
     [] rnd).
Proof. intros He. unfold encryptResponse. rewrite He. reflexivity. Qed.

Lemma decryptResponse_ok (e : ECIESEncryptor) (c : ECIESCryptogram) (out : bytes)
    (envelope plain : bytes) :
  enc_envelopeKey e = Some envelope ->
  bytes_empty (body c) = false -> bytes_empty (mac c) = false ->
  bytes_empty (nonce c) = false ->
  mac c = HMAC_SHA256 (macKey envelope)
            (response_associated (body c) (enc_sharedInfo2 e) (nonce c)) ->
  AES_CBC_Decrypt_Padding (encKey envelope) (derive_iv envelope (nonce c)) (body c)
    = Some plain ->
  decryptResponse e c out = (EC_Ok, e, plain).
Proof.
  intros He Hb Hm Hn Hmac Hp. unfold decryptResponse.
  rewrite He, Hb, Hm, Hn. cbn [orb]. cbv zeta.
  rewrite <- Hmac, bytes_eqb_refl, Hp. reflexivity.
Qed.

Lemma bytes_empty_length (l : bytes) (k : nat) :
  List.length l = S k -> bytes_empty l = false.
Proof. destruct l; [discriminate | reflexivity]. Qed.

Lemma bytes_empty_false (l : bytes) : bytes_empty l = false <-> l <> [].
Proof. destruct l; simpl; split; congruence. Qed.

Lemma keys_agree_inv (server_priv e_priv : Z) :
  keys_agree server_priv e_priv = true ->
  exists Ps Pe secret,
    ECC_ImportPublicKey (ECC_PublicKeyOfPrivate server_priv) = Some Ps /\
    ECC_ImportPublicKey (ECC_PublicKeyOfPrivate e_priv) = Some Pe /\
    ECDH_SharedSecret e_priv Ps = Some secret /\
    ECDH_SharedSecret server_priv Pe = Some secret.
Proof.
  unfold keys_agree.
  destruct (ECC_ImportPublicKey (ECC_PublicKeyOfPrivate server_priv)) as [Ps|] eqn:HPs;
    [| discriminate].
  destruct (ECC_ImportPublicKey (ECC_PublicKeyOfPrivate e_priv)) as [Pe|] eqn:HPe;
    [| discriminate].
  destruct (ECDH_SharedSecret e_priv Ps) as [s1|] eqn:Hs1; [| discriminate].
  destruct (ECDH_SharedSecret server_priv Pe) as [s2|] eqn:Hs2; [| discriminate].
  intros H. apply bytes_eqb_eq in H. subst s2.
  exists Ps, Pe, s1. repeat split; assumption.
Qed.

Context {OK : PrimitivesOk P}.

(** With a master key pair and an ephemeral key pair that derive the same
    ECDH secret, and nonces of 16 octets, one round of the exchange succeeds
    at every step for every request, response and pair of shared-info
    strings, whatever state the encryptor and the decryptor were left in: the
    decryptor recovers exactly the request and the encryptor exactly the
    response (the empty plaintext included). *)
Theorem ecies_round_trip (server_priv e_priv : Z) (rnd1 rnd2 : bytes) (row : Data)
    (si1 si2 si1' si2' : bytes) (env env' : option bytes)
    (Hpriv : (0 <= server_priv < 2 ^ 256)%Z)
    (Hagree : keys_agree server_priv e_priv = true)
    (Hrnd1 : List.length rnd1 = 16) (Hrnd2 : List.length rnd2 = 16) :
  let r := test_round
             (mkEncryptor (master_public_key server_priv) si1 si2 env)
             (mkDecryptor (master_private_key server_priv) si1' si2' env')
             e_priv rnd1 rnd2 row in
  ec_encryptRequest r = EC_Ok /\
  ec_decryptRequest r = EC_Ok /\
  server_received_data r = requestData row /\
  ec_encryptResponse r = EC_Ok /\
  ec_decryptResponse r = EC_Ok /\
  client_received_data r = responseData row.
Proof.
  apply keys_agree_inv in Hagree as (Ps & Pe & secret & HPs & HPe & Hs1 & Hs2).
  unfold test_round, enc_setSharedInfo1, enc_setSharedInfo2,
    dec_setSharedInfo1, dec_setSharedInfo2.
  cbn [enc_publicKey enc_sharedInfo1 enc_sharedInfo2 enc_envelopeKey
       dec_privateKey dec_sharedInfo1 dec_sharedInfo2 dec_envelopeKey].
  erewrite encryptRequest_ok; [| exact HPs | exact Hs1].
  cbn [enc_publicKey enc_sharedInfo1 enc_sharedInfo2 enc_envelopeKey]. cbv zeta.
  erewrite decryptRequest_ok;
    [| exact HPe
     | cbn [dec_privateKey]; rewrite master_private_key_import by exact Hpriv; exact Hs2
     | reflexivity
     | apply AES_CBC_Decrypt_Encrypt].
  cbn [dec_privateKey dec_sharedInfo1 dec_sharedInfo2 dec_envelopeKey].
  erewrite encryptResponse_ok; [| reflexivity].
  cbn [dec_sharedInfo2]. cbv zeta.
  erewrite decryptResponse_ok;
    [| reflexivity
     | apply AES_CBC_Encrypt_nonempty
     | apply (bytes_empty_length _ 31), HMAC_length
     | apply (bytes_empty_length _ 15), Hrnd2
     | reflexivity
     | apply AES_CBC_Decrypt_Encrypt].
  cbn [ec_encryptRequest ec_decryptRequest server_received_data ec_encryptResponse
       ec_decryptResponse client_received_data].
  repeat split.
Qed.

End EngineFacts.

Section EngineFacts2.

Local Open Scope list_scope.
Import Octets P256 Crypto ECIES.

Lemma toy_take_length (n : nat) (data : bytes) : List.length (toy_take n data) = n.
Proof.
  unfold toy_take. rewrite length_firstn, length_app, repeat_length. lia.
Qed.

Lemma toy_primitives_ok : PrimitivesOk toy_primitives.
Proof.
  split; cbn [AES_EncryptBlock AES_DecryptBlock HMAC_SHA256 toy_primitives].
  - intros _ blk Hb. now rewrite length_rev.
  - intros _ blk _. apply rev_involutive.
  - intros k d. apply toy_take_length.
Qed.

Lemma pair_eq_inv {A B : Type} (u u' : A) (v v' : B) :
  (u, v) = (u', v') -> u = u' /\ v = v'.
Proof. intros H. now injection H. Qed.

Lemma ECC_ExportPublicKey_nonempty (Q : point) : ECC_ExportPublicKey Q <> [].
Proof. destruct Q; discriminate. Qed.

Lemma nonempty_of_length (l : bytes) (k : nat) : List.length l = S k -> l <> [].
Proof. destruct l; [discriminate | congruence]. Qed.

Context {P : Primitives}.

(** C2. [encryptRequest] on an encryptor whose public key is not a valid
    P-256 point, or is the key of [testInvalidCurve], returns
    [EC_Encryption]; the encryptor and the output cryptogram are left as
    they were. *)
Theorem encryptRequest_invalid_key (e : ECIESEncryptor) (e_priv : Z)
    (rnd data : bytes) (out : ECIESCryptogram)
    (Hinvalid : ~ valid_public_key (enc_publicKey e)
                \/ enc_publicKey e = invalid_public_key) :
  encryptRequest e e_priv rnd data out = (EC_Encryption, e, out).
Proof.
  unfold encryptRequest. now rewrite (invalid_key_refused _ Hinvalid).
Qed.

Context {OK : PrimitivesOk P}.

Lemma encryptRequest_Ok_inv (e e' : ECIESEncryptor) (e_priv : Z) (rnd data : bytes)
    (out req : ECIESCryptogram) :
  encryptRequest e e_priv rnd data out = (EC_Ok, e', req) ->
  exists envelope,
    enc_envelopeKey e' = Some envelope /\
    body req = AES_CBC_Encrypt_Padding (encKey envelope) (derive_iv envelope rnd) data /\
    mac req = HMAC_SHA256 (macKey envelope)
                (request_associated (body req) (enc_sharedInfo2 e)
                   (ECC_PublicKeyOfPrivate e_priv) rnd) /\
    key req = ECC_PublicKeyOfPrivate e_priv /\
    nonce req = rnd.
Proof.
  unfold encryptRequest.
  destruct (ECC_ImportPublicKey (enc_publicKey e)) as [peer|]; [| discriminate].
  destruct (ECDH_SharedSecret e_priv peer) as [secret|]; [| discriminate].
  cbv zeta. intros H.
  apply pair_eq_inv in H as [H <-]. apply pair_eq_inv in H as [_ <-].
  eexists. repeat split.
Qed.

Lemma encryptResponse_Ok_inv (d d' : ECIESDecryptor) (rnd data : bytes)
    (out resp : ECIESCryptogram) :
  encryptResponse d rnd data out = (EC_Ok, d', resp) ->
  exists envelope,
    dec_envelopeKey d = Some envelope /\ d' = d /\
    body resp = AES_CBC_Encrypt_Padding (encKey envelope) (derive_iv envelope rnd) data /\
    mac resp = HMAC_SHA256 (macKey envelope)
                 (response_associated (body resp) (dec_sharedInfo2 d) rnd) /\
    key resp = [] /\
    nonce resp = rnd.
Proof.
  unfold encryptResponse.
  destruct (dec_envelopeKey d) as [envelope|]; [| discriminate].
  cbv zeta. intros H.
  apply pair_eq_inv in H as [H <-]. apply pair_eq_inv in H as [_ <-].
  eexists. repeat split.
Qed.

(** C5. After a successful [encryptRequest] the cryptogram has a non-empty
    body, MAC and ephemeral key; after a successful [encryptResponse] it has
    a non-empty body and MAC and an empty key.  The body is the plaintext
    padded to the next multiple of 16 octets (16 octets for the empty
    plaintext), the MAC has 32 octets. *)
Theorem cryptogram_fields (e e' : ECIESEncryptor) (d d' : ECIESDecryptor) (e_priv : Z)
    (rnd1 rnd2 data1 data2 : bytes) (out1 out2 req resp : ECIESCryptogram)
    (Hreq : encryptRequest e e_priv rnd1 data1 out1 = (EC_Ok, e', req))
    (Hresp : encryptResponse d rnd2 data2 out2 = (EC_Ok, d', resp)) :
  (body req <> [] /\ mac req <> [] /\ key req <> [])
  /\ (body resp <> [] /\ mac resp <> [] /\ key resp = [])
  /\ List.length (body req) = 16 * (List.length data1 / 16 + 1)
  /\ List.length (body resp) = 16 * (List.length data2 / 16 + 1)
  /\ List.length (mac req) = 32 /\ List.length (mac resp) = 32.
Proof.
  apply encryptRequest_Ok_inv in Hreq as (env1 & _ & Hb1 & Hm1 & Hk1 & _).
  apply encryptResponse_Ok_inv in Hresp as (env2 & _ & _ & Hb2 & Hm2 & Hk2 & _).
  assert (Hl1 : List.length (body req) = 16 * (List.length data1 / 16 + 1))
    by (rewrite Hb1; apply AES_CBC_Encrypt_length).
  assert (Hl2 : List.length (body resp) = 16 * (List.length data2 / 16 + 1))
    by (rewrite Hb2; apply AES_CBC_Encrypt_length).
  assert (Hm1' : List.length (mac req) = 32) by (rewrite Hm1; apply HMAC_length).
  assert (Hm2' : List.length (mac resp) = 32) by (rewrite Hm2; apply HMAC_length).
  repeat split; try assumption.
  - apply (nonempty_of_length _ (16 * (List.length data1 / 16) + 15)). lia.
  - now apply (nonempty_of_length _ 31).
  - rewrite Hk1. apply ECC_ExportPublicKey_nonempty.
  - apply (nonempty_of_length _ (16 * (List.length data2 / 16) + 15)). lia.
  - now apply (nonempty_of_length _ 31).
Qed.

End EngineFacts2.

(** ** Sample runs *)

Section Samples.

Local Open Scope list_scope.
Import Octets P256 Crypto ECIES.

Lemma encryptRequest_invalid_key_witness :
  encryptRequest (P := toy_primitives)
    (newECIESEncryptor invalid_public_key [] []) 11 sample_rnd1
    (MakeRange "should not be encrypted") empty_cryptogram
  = (EC_Encryption, newECIESEncryptor invalid_public_key [] [], empty_cryptogram).
Proof.
  apply (encryptRequest_invalid_key (P := toy_primitives)).
  right. reflexivity.
Defined.

Lemma ecies_round_trip_witness :
  let r := test_round (P := toy_primitives)
             (newECIESEncryptor (master_public_key 7) [] [])
             (newECIESDecryptor (master_private_key 7) [] [])
             11 sample_rnd1 sample_rnd2 (mkData [] [] [] []) in
  ec_encryptRequest r = EC_Ok /\
  ec_decryptRequest r = EC_Ok /\
  server_received_data r = [] /\
  ec_encryptResponse r = EC_Ok /\
  ec_decryptResponse r = EC_Ok /\
  client_received_data r = [].
Proof.
  apply (ecies_round_trip (P := toy_primitives) (OK := toy_primitives_ok)
           7 11 sample_rnd1 sample_rnd2 (mkData [] [] [] []) [] [] [] [] None None).
  - vm_compute. split; [discriminate | reflexivity].
  - vm_compute. reflexivity.
  - reflexivity.
  - reflexivity.
Defined.

Lemma cryptogram_fields_witness :
  (body (request sample_round) <> [] /\ mac (request sample_round) <> []
   /\ key (request sample_round) <> [])
  /\ (body (response sample_round) <> [] /\ mac (response sample_round) <> []
      /\ key (response sample_round) = [])
  /\ List.length (body (request sample_round))
     = 16 * (List.length (requestData sample_row) / 16 + 1)
  /\ List.length (body (response sample_round))
     = 16 * (List.length (responseData sample_row) / 16 + 1)
  /\ List.length (mac (request sample_round)) = 32
  /\ List.length (mac (response sample_round)) = 32.
Proof.
  apply (cryptogram_fields (P := toy_primitives) (OK := toy_primitives_ok)
           sample_encryptor (client_encryptor' sample_round)
           (server_decryptor' sample_round) (server_decryptor' sample_round)
           11 sample_rnd1 sample_rnd2 (requestData sample_row) (responseData sample_row)
           empty_cryptogram empty_cryptogram
           (request sample_round) (response sample_round)).
  - vm_compute. reflexivity.
  - vm_compute. reflexivity.
Defined.

End Samples.

(** ** Requests: validity, offline requests, constructors *)

Section RequestFacts.

Import PublicTypes.

Lemma hasValidData_requires (r : HTTPRequestData) :
  hasValidData r = true ->
  In (method r) allowed_methods /\ uri r <> "" /\
  (offlineNonce r = "" \/ String.length (offlineNonce r) = 24).
Proof.
  unfold hasValidData.
  destruct (str_empty (method r)); [discriminate |].
  destruct (str_empty (uri r)) eqn:Hu; [discriminate |]. cbn [orb].
  destruct (String.eqb (method r) "GET" || String.eqb (method r) "POST"
            || String.eqb (method r) "HEAD" || String.eqb (method r) "PUT"
            || String.eqb (method r) "DELETE") eqn:Hw; [| discriminate].
  cbn [negb].
  destruct (negb (str_empty (offlineNonce r))
            && negb (Nat.eqb (str_size (offlineNonce r)) 24)) eqn:Hn; [discriminate |].
  intros _. split; [now apply method_allowed_iff |].
  split; [now apply str_empty_false | now apply nonce_check_iff].
Qed.

(** X1. In a request that passes [hasValidData], [isOfflineRequest] holds
    exactly when the offline nonce has 24 characters, and fails exactly when
    there is no offline nonce. *)
Theorem valid_request_offline_nonce (r : HTTPRequestData)
    (Hvalid : hasValidData r = true) :
  (isOfflineRequest r = true <-> str_size (offlineNonce r) = 24)
  /\ (isOfflineRequest r = false <-> offlineNonce r = "").
Proof.
  apply hasValidData_requires in Hvalid as (_ & _ & Hn).
  unfold isOfflineRequest, str_size.
  destruct (offlineNonce r) as [|c n] eqn:Hr; cbn [str_empty negb].
  - split; split; intros H; try reflexivity; discriminate.
  - destruct Hn as [Hn | Hn]; [discriminate |].
    split; split; intros H; try reflexivity; try discriminate; exact Hn.
Qed.

Lemma valid_request_offline_nonce_witness :
  let r := HTTPRequestData4 [] "POST" "/pa/signature/validate" "MDEyMzQ1Njc4OWFiY2RlZg==" in
  (isOfflineRequest r = true <-> str_size (offlineNonce r) = 24)
  /\ (isOfflineRequest r = false <-> offlineNonce r = "").
Proof.
  cbv zeta.
  apply (valid_request_offline_nonce
           (HTTPRequestData4 [] "POST" "/pa/signature/validate" "MDEyMzQ1Njc4OWFiY2RlZg==")).
  reflexivity.
Defined.

(** X2. A request built by the three-argument constructor is never an offline
    request; it passes [hasValidData] exactly when its method is accepted and
    its uri is not empty, whatever its body. *)
Theorem HTTPRequestData3_valid (b : bytes) (m u : string) :
  isOfflineRequest (HTTPRequestData3 b m u) = false
  /\ (hasValidData (HTTPRequestData3 b m u) = true <-> In m allowed_methods /\ u <> "")
  /\ hasValidData (HTTPRequestData3 b m u) = hasValidData (HTTPRequestData3 [] m u).
Proof.
  split; [reflexivity |]. split; [| reflexivity].
  split.
  - intros H. apply hasValidData_requires in H as (Hm & Hu & _). now split.
  - intros [Hm Hu]. apply hasValidData_accepts; auto.
Qed.

(** X6. When an upgrade is reported as available, the current version is
    strictly below MaxSupported, and the upgrade stays available for every
    larger MaxSupported. *)
Theorem isProtocolUpgradeAvailable_bounds (MaxSupported : Z) (s : ActivationStatus)
    (Havailable : isProtocolUpgradeAvailable MaxSupported s = true) :
  (currentVersion s < MaxSupported)%Z
  /\ (currentVersion s <> upgradeVersion s)
  /\ forall MaxSupported' : Z,
       (MaxSupported <= MaxSupported')%Z ->
       isProtocolUpgradeAvailable MaxSupported' s = true.
Proof.
  unfold isProtocolUpgradeAvailable in *.
  destruct (State_eqb (state s) Active); [| discriminate].
  destruct (Z.ltb_spec (currentVersion s) (upgradeVersion s)) as [Hlt | Hge];
    [| discriminate].
  apply Z.leb_le in Havailable.
  split; [lia |]. split; [lia |].
  intros M' HM. apply Z.leb_le. lia.
Qed.

Lemma isProtocolUpgradeAvailable_bounds_witness :
  let s := mkActivationStatus Active 0 5 2 3 in
  (currentVersion s < 3)%Z
  /\ (currentVersion s <> upgradeVersion s)
  /\ forall MaxSupported' : Z,
       (3 <= MaxSupported')%Z ->
       isProtocolUpgradeAvailable MaxSupported' s = true.
Proof.
  cbv zeta.
  apply (isProtocolUpgradeAvailable_bounds 3 (mkActivationStatus Active 0 5 2 3)).
  reflexivity.
Defined.

End RequestFacts.

(** ** The authorization header: size and ambiguity *)

Section HeaderFacts.

Import PublicTypes.

(** X3. The size reserved by [buildAuthHeaderValue] is exactly the size of
    the header it builds, when [PA_AUTH_FRAGMENTS_LENGTH] is the total length
    of the seven literals: the header is the six values and the literals,
    nothing else. *)
Theorem buildAuthHeaderValue_reserved_size (K : AuthFragments)
    (PA_AUTH_FRAGMENTS_LENGTH : nat) (s : HTTPRequestDataSignature)
    (Hlen : PA_AUTH_FRAGMENTS_LENGTH = fragments_length K) :
  str_size (buildAuthHeaderValue K s) = out_size PA_AUTH_FRAGMENTS_LENGTH s.
Proof.
  rewrite buildAuthHeaderValue_size. unfold out_size. rewrite Hlen.
  unfold fragments_length. reflexivity.
Qed.

Lemma buildAuthHeaderValue_reserved_size_witness :
  str_size (buildAuthHeaderValue spec_fragments
              (mkHTTPRequestDataSignature "3.1" "ACT-ID" "APP-KEY" "Tm9uY2U="
                 "possession" "12345678"))
  = out_size 119
      (mkHTTPRequestDataSignature "3.1" "ACT-ID" "APP-KEY" "Tm9uY2U=" "possession" "12345678").
Proof.
  apply (buildAuthHeaderValue_reserved_size spec_fragments 119).
  reflexivity.
Defined.

Lemma str_append_cancel_l (x y z : string) :
  String.append x y = String.append x z -> y = z.
Proof.
  induction x as [|c x IH]; [trivial |].
  rewrite !str_append_cons. intros [= H]. now apply IH.
Qed.

Lemma contains_char_cons (q c : ascii) (x : string) :
  contains_char q (String c x) = false -> c <> q /\ contains_char q x = false.
Proof.
  cbn [contains_char]. rewrite orb_false_iff, Ascii.eqb_neq. tauto.
Qed.

(** Two strings without [q], each followed by [q]: the first [q] ends them. *)
Lemma split_at_first (q : ascii) (x x' y y' : string) :
  contains_char q x = false -> contains_char q x' = false ->
  String.append x (String q y) = String.append x' (String q y') ->
  x = x' /\ y = y'.
Proof.
  revert x'. induction x as [|c x IH]; intros [|c' x'] Hx Hx'.
  - cbn. intros [= ->]. now split.
  - apply contains_char_cons in Hx' as [Hc' _].
    rewrite str_append_cons. cbn. intros [= Hq _]. congruence.
  - apply contains_char_cons in Hx as [Hc _].
    rewrite str_append_cons. cbn. intros [= Hq _]. congruence.
  - apply contains_char_cons in Hx as [_ Hx].
    apply contains_char_cons in Hx' as [_ Hx'].
    rewrite !str_append_cons. intros [= -> H].
    destruct (IH x' Hx Hx' H) as [-> ->]. now split.
Qed.

Lemma starts_with_char_inv (q : ascii) (l : string) :
  starts_with_char q l = true -> exists l', l = String q l'.
Proof.
  destruct l as [|c l]; [discriminate |]. cbn.
  intros H. apply Ascii.eqb_eq in H. subst c. eauto.
Qed.

(** One step: a value without [q] followed by a literal that starts with [q]. *)
Lemma field_step (q : ascii) (lit v v' rest rest' : string) :
  starts_with_char q lit = true ->
  contains_char q v = false -> contains_char q v' = false ->
  String.append v (String.append lit rest) = String.append v' (String.append lit rest') ->
  v = v' /\ rest = rest'.
Proof.
  intros Hl Hv Hv' H. apply starts_with_char_inv in Hl as [l' ->].
  rewrite !str_append_cons in H.
  apply split_at_first in H as [-> H]; [| assumption | assumption].
  split; [reflexivity |]. now apply str_append_cancel_l in H.
Qed.

Lemma values_free_of_inv (q : ascii) (s : HTTPRequestDataSignature) :
  values_free_of q s = true ->
  contains_char q (version s) = false /\ contains_char q (activationId s) = false /\
  contains_char q (applicationKey s) = false /\ contains_char q (nonce s) = false /\
  contains_char q (factor s) = false /\ contains_char q (signature s) = false.
Proof.
  unfold values_free_of, header_fields. cbn [forallb].
  rewrite !andb_true_iff, !negb_true_iff. tauto.
Qed.

Lemma buildAuthHeaderValue_nested (K : AuthFragments) (s : HTTPRequestDataSignature) :
  buildAuthHeaderValue K s =
  PA_AUTH_FRAGMENT_BEGIN_VERSION K ++ version s ++
  PA_AUTH_FRAGMENT_ACTIVATION_ID K ++ activationId s ++
  PA_AUTH_FRAGMENT_APPLICATION_KEY K ++ applicationKey s ++
  PA_AUTH_FRAGMENT_NONCE K ++ nonce s ++
  PA_AUTH_FRAGMENT_SIGNATURE_TYPE K ++ factor s ++
  PA_AUTH_FRAGMENT_SIGNATURE K ++ signature s ++
  PA_AUTH_FRAGMENT_END K ++ "".
Proof.
  unfold buildAuthHeaderValue, str_assign, str_append.
  rewrite ?str_append_nil_r, ?str_append_assoc. reflexivity.
Qed.

(** X4. When every literal that follows a value starts with a character that
    occurs in no value (the double quote of the header template), the header
    determines the signature: two signatures with the same header have the
    same six values. *)
Theorem buildAuthHeaderValue_injective (K : AuthFragments) (q : ascii)
    (s1 s2 : HTTPRequestDataSignature)
    (HK : closing_literals_start_with q K = true)
    (H1 : values_free_of q s1 = true) (H2 : values_free_of q s2 = true)
    (Heq : buildAuthHeaderValue K s1 = buildAuthHeaderValue K s2) :
  s1 = s2.
Proof.
  unfold closing_literals_start_with in HK.
  rewrite !andb_true_iff in HK.
  destruct HK as (((((K1 & K2) & K3) & K4) & K5) & K6).
  apply values_free_of_inv in H1 as (A1 & A2 & A3 & A4 & A5 & A6).
  apply values_free_of_inv in H2 as (B1 & B2 & B3 & B4 & B5 & B6).
  rewrite !buildAuthHeaderValue_nested in Heq.
  apply str_append_cancel_l in Heq.
  apply (field_step q) in Heq as [E1 Heq]; [| assumption ..].
  apply (field_step q) in Heq as [E2 Heq]; [| assumption ..].
  apply (field_step q) in Heq as [E3 Heq]; [| assumption ..].
  apply (field_step q) in Heq as [E4 Heq]; [| assumption ..].
  apply (field_step q) in Heq as [E5 Heq]; [| assumption ..].
  apply (field_step q) in Heq as [E6 _]; [| assumption ..].
  destruct s1, s2. cbn in *. congruence.
Qed.

Lemma buildAuthHeaderValue_injective_witness :
  mkHTTPRequestDataSignature "3.1" "ACT-ID" "APP-KEY" "Tm9uY2U=" "possession" "12345678"
  = mkHTTPRequestDataSignature "3.1" "ACT-ID" "APP-KEY" "Tm9uY2U=" "possession" "12345678".
Proof.
  apply (buildAuthHeaderValue_injective spec_fragments (ascii_of_nat 34)).
  - reflexivity.
  - reflexivity.
  - reflexivity.
  - reflexivity.
Defined.

(** X5. [buildAuthHeaderValue] copies the values as they are, without
    escaping: whatever the literals, two different signatures have the same
    header, one of them holding a literal inside a value. *)
Theorem buildAuthHeaderValue_not_injective (K : AuthFragments) :
  exists s1 s2 : HTTPRequestDataSignature,
    s1 <> s2 /\ buildAuthHeaderValue K s1 = buildAuthHeaderValue K s2.
Proof.
  exists (mkHTTPRequestDataSignature ("a" ++ PA_AUTH_FRAGMENT_ACTIVATION_ID K ++ "b") "" "" "" "" "").
  exists (mkHTTPRequestDataSignature "a" ("b" ++ PA_AUTH_FRAGMENT_ACTIVATION_ID K) "" "" "" "").
  split.
  - intros H. apply (f_equal activationId) in H.
    cbn [activationId] in H. rewrite str_append_cons in H. discriminate H.
  - rewrite !buildAuthHeaderValue_nested.
    cbn [version activationId applicationKey nonce factor signature].
    rewrite ?str_append_assoc, ?str_append_nil_r. reflexivity.
Qed.

End HeaderFacts.

(** ** The master private key of the ECIES test *)

Section JavaFacts.

Import Octets ECIES.
Local Open Scope list_scope.
Local Open Scope Z_scope.

(** X7. The master private key as the test fixes it for Java: read as a
    two's complement big integer it is the unsigned value of the exported
    key, hence not negative; its unsigned value is unchanged; at most one
    octet is added, and a zero octet is added exactly when Java would have
    read the exported key as negative. *)
Theorem java_compatible_positive (k : bytes) (Hk : k <> []) :
  java_BigInteger (java_compatible k) = be_to_Z k
  /\ be_to_Z (java_compatible k) = be_to_Z k
  /\ 0 <= java_BigInteger (java_compatible k)
  /\ (List.length (java_compatible k) <= S (List.length k))%nat
  /\ (java_BigInteger k < 0 <-> java_compatible k = Byte.x00 :: k).
Proof.
  destruct k as [|b0 k]; [congruence |].
  pose proof (be_to_Z_range (b0 :: k)) as Hr.
  assert (Hhigh : 0x7F < byte_to_Z b0 -> 256 ^ Z.of_nat (List.length (b0 :: k)) <= 2 * be_to_Z (b0 :: k)).
  { intros Hb. rewrite be_to_Z_cons. cbn [List.length].
    rewrite Nat2Z.inj_succ, Z.pow_succ_r by lia.
    pose proof (be_to_Z_range k). nia. }
  unfold java_compatible, java_BigInteger.
  destruct (Z.ltb_spec 0x7F (byte_to_Z b0)) as [Hb | Hb].
  - change (0x7F <? byte_to_Z Byte.x00) with false. cbn iota.
    rewrite (be_to_Z_cons Byte.x00). change (byte_to_Z Byte.x00) with 0.
    repeat split; try lia.
    cbn [List.length]. lia.
  - destruct (Z.ltb_spec 0x7F (byte_to_Z b0)) as [Hb' | _]; [lia |].
    repeat split; try lia.
    intros H. apply (f_equal (@List.length _)) in H. cbn in H. lia.
Qed.

Lemma java_compatible_positive_witness :
  let k := FromHexString "C9AFA9D845BA75166B5C215767B1D6934E50C3DB36E89B127B8A622B120F6721" in
  java_BigInteger (java_compatible k) = be_to_Z k
  /\ be_to_Z (java_compatible k) = be_to_Z k
  /\ 0 <= java_BigInteger (java_compatible k)
  /\ (List.length (java_compatible k) <= S (List.length k))%nat
  /\ (java_BigInteger k < 0 <-> java_compatible k = Byte.x00 :: k).
Proof.
  cbv zeta.
  apply (java_compatible_positive
           (FromHexString "C9AFA9D845BA75166B5C215767B1D6934E50C3DB36E89B127B8A622B120F6721")).
  vm_compute. discriminate.
Defined.

End JavaFacts.
